(** * add_getters.py: the DTO getter patcher

    The script reads one Java source file, applies three [re.sub] calls to
    its text and writes the result back.  This development embeds

    - the fragment of Python's [re] module that the three calls use
      (pattern compilation to a flat opcode program, the backtracking
      matcher, replacement templates, the non-overlapping scan of [re.sub]),
    - the three calls themselves, with the pattern and replacement strings
      of the script, and
    - the read / transform / write / print sequence over an explicit world
      (file system, standard output, log of file operations), once with
      each file as the text that [read()] returns for it and once with the
      bytes of the file, the codec and the newline translation of text mode,

    and proves the properties of the specification about them. *)

From Stdlib Require Import NArith List String Ascii Bool Lia.
From stdpp Require Import gmap strings list.

Local Open Scope N_scope.

(** ** Text

    A Python [str] is a sequence of code points. *)

Definition char := N.
Abbreviation text := (list char).

Definition chr (a : ascii) : char := N_of_ascii a.

(** The text of an ASCII literal of the script. *)
Definition str (s : string) : text := map chr (list_ascii_of_string s).

(** [Py_UNICODE_ISSPACE]: what [\s] matches in a [str] pattern. *)
Definition Py_UNICODE_ISSPACE (c : char) : bool :=
  ((0x09 <=? c) && (c <=? 0x0D)) || ((0x1C <=? c) && (c <=? 0x20))
  || (c =? 0x85) || (c =? 0xA0) || (c =? 0x1680)
  || ((0x2000 <=? c) && (c <=? 0x200A))
  || (c =? 0x2028) || (c =? 0x2029) || (c =? 0x202F) || (c =? 0x205F)
  || (c =? 0x3000).

Definition is_digit (c : char) : bool := (48 <=? c) && (c <=? 57).
Definition is_alpha (c : char) : bool :=
  ((65 <=? c) && (c <=? 90)) || ((97 <=? c) && (c <=? 122)).

(** ** Compiled patterns

    [sre_compile] turns a pattern into a flat opcode sequence.  The
    patterns of the script need single-character sets, the greedy
    repetition of such a set, and group marks. *)

Inductive cset :=
| SetLit (c : char)       (* LITERAL c *)
| SetNotLit (c : char)    (* [^c] *)
| SetSpace                (* \s *)
| SetAny (dotall : bool). (* .  (ANY_ALL under re.DOTALL, ANY otherwise) *)

Definition cset_mem (cs : cset) (c : char) : bool :=
  match cs with
  | SetLit d => c =? d
  | SetNotLit d => negb (c =? d)
  | SetSpace => Py_UNICODE_ISSPACE c
  | SetAny dotall => dotall || negb (c =? 10)
  end.

Inductive op :=
| One (cs : cset)      (* one character of the set *)
| Star (cs : cset)     (* MAX_REPEAT 0 MAXREPEAT over the set: greedy [*] *)
| Mark (k : nat).      (* MARK k: group g opens at 2(g-1), closes at 2(g-1)+1 *)

Inductive token := TAtom (cs : cset) | TStar | TOpen | TClose.

(** Pattern syntax.  [None] stands for [re.error] and for syntax outside
    the embedded fragment. *)
Fixpoint tokenize (dotall : bool) (p : text) : option (list token) :=
  match p with
  | [] => Some []
  | c :: p1 =>
    if c =? chr "\" then
      match p1 with
      | [] => None
      | e :: p2 =>
        if e =? chr "s" then cons (TAtom SetSpace) <$> tokenize dotall p2
        else if is_alpha e || is_digit e then None
        else cons (TAtom (SetLit e)) <$> tokenize dotall p2
      end
    else if c =? chr "[" then
      match p1 with
      | n :: x :: r :: p4 =>
        if (n =? chr "^") && (r =? chr "]")
           && negb ((x =? chr "\") || (x =? chr "]") || (x =? chr "^") || (x =? chr "["))
        then cons (TAtom (SetNotLit x)) <$> tokenize dotall p4
        else None
      | _ => None
      end
    else if c =? chr "(" then
      match p1 with
      | q :: _ => if q =? chr "?" then None
                  else cons TOpen <$> tokenize dotall p1
      | [] => None
      end
    else if c =? chr ")" then cons TClose <$> tokenize dotall p1
    else if c =? chr "*" then cons TStar <$> tokenize dotall p1
    else if c =? chr "." then cons (TAtom (SetAny dotall)) <$> tokenize dotall p1
    else if (c =? chr "+") || (c =? chr "?") || (c =? chr "{") || (c =? chr "}")
            || (c =? chr "|") || (c =? chr "^") || (c =? chr "$") || (c =? chr "]")
    then None
    else cons (TAtom (SetLit c)) <$> tokenize dotall p1
  end.

(** [next] is the number of the next group to open, [opened] the stack of
    groups still open.  The result carries the number of groups. *)
Fixpoint assemble (ts : list token) (next : nat) (opened : list nat)
  : option (list op * nat) :=
  match ts with
  | [] => match opened with [] => Some ([], Nat.pred next) | _ => None end
  | TAtom cs :: ts1 =>
    match ts1 with
    | TStar :: ts2 =>
      match ts2 with
      | TStar :: _ => None
      | _ => prod_map (cons (Star cs)) id <$> assemble ts2 next opened
      end
    | _ => prod_map (cons (One cs)) id <$> assemble ts1 next opened
    end
  | TStar :: _ => None
  | TOpen :: ts1 =>
    prod_map (cons (Mark (2 * Nat.pred next))) id
      <$> assemble ts1 (S next) (next :: opened)
  | TClose :: ts1 =>
    match opened with
    | [] => None
    | g :: opened' =>
      match ts1 with
      | TStar :: _ => None
      | _ => prod_map (cons (Mark (2 * Nat.pred g + 1))) id
               <$> assemble ts1 next opened'
      end
    end
  end.

(** [re.compile(pattern, flags)] *)
Definition compile (pattern : string) (dotall : bool) : option (list op * nat) :=
  ts ← tokenize dotall (str pattern); assemble ts 1%nat [].

(** ** The matcher *)

Definition marks := list (nat * nat).

Definition mark_get (mk : marks) (k : nat) : option nat :=
  snd <$> find (fun e => Nat.eqb (fst e) k) mk.

(** [sre_count]: the length of the longest run of [cs] at the head of [s]. *)
Fixpoint count_in (cs : cset) (s : text) : nat :=
  match s with
  | c :: s' => if cset_mem cs c then S (count_in cs s') else 0%nat
  | [] => 0%nat
  end.

(** The tail of a greedy repetition: try the continuation after [n]
    characters, then after [n-1], ... down to none. *)
Fixpoint repeat_back {R} (k : text -> nat -> option R) (s : text) (pos n : nat)
  : option R :=
  match k (drop n s) (pos + n)%nat with
  | Some r => Some r
  | None => match n with
            | O => None
            | S n' => repeat_back k s pos n'
            end
  end.

(** [sre_match] at the head of [s]; [pos] counts the characters consumed
    since the start of the match.  [must_advance] refuses an empty match. *)
Fixpoint sre_match (prog : list op) (must_advance : bool)
    (s : text) (pos : nat) (mk : marks) : option (nat * marks) :=
  match prog with
  | [] => if must_advance && Nat.eqb pos 0 then None else Some (pos, mk)
  | One cs :: prog' =>
    match s with
    | c :: s' => if cset_mem cs c
                 then sre_match prog' must_advance s' (S pos) mk
                 else None
    | [] => None
    end
  | Star cs :: prog' =>
    repeat_back (fun s' pos' => sre_match prog' must_advance s' pos' mk)
                s pos (count_in cs s)
  | Mark i :: prog' => sre_match prog' must_advance s pos ((i, pos) :: mk)
  end.

Definition match_at (prog : list op) (must_advance : bool) (s : text)
  : option (nat * marks) :=
  sre_match prog must_advance s 0 [].

(** ** Replacement templates *)

Inductive titem := TLit (c : char) | TGroup (g : nat).

(** [parse_template]: [\d] is a group reference, [\n] a newline. *)
Fixpoint parse_template (ngroups : nat) (r : text) : option (list titem) :=
  match r with
  | [] => Some []
  | c :: r1 =>
    if c =? chr "\" then
      match r1 with
      | [] => None
      | e :: r2 =>
        if is_digit e then
          match r2 with
          | d :: _ => if is_digit d then None else
              let g := N.to_nat (e - 48) in
              if (Nat.ltb 0 g && Nat.leb g ngroups)%nat
              then cons (TGroup g) <$> parse_template ngroups r2 else None
          | [] =>
              let g := N.to_nat (e - 48) in
              if (Nat.ltb 0 g && Nat.leb g ngroups)%nat
              then cons (TGroup g) <$> parse_template ngroups r2 else None
          end
        else if e =? chr "n" then cons (TLit 10) <$> parse_template ngroups r2
        else if e =? chr "\" then cons (TLit e) <$> parse_template ngroups r2
        else None
      end
    else cons (TLit c) <$> parse_template ngroups r1
  end.

Definition group_text (s : text) (mk : marks) (g : nat) : text :=
  match mark_get mk (2 * Nat.pred g), mark_get mk (2 * Nat.pred g + 1) with
  | Some a, Some b => take (b - a) (drop a s)
  | _, _ => []
  end.

Definition expand (tmpl : list titem) (s : text) (mk : marks) : text :=
  flat_map (fun it => match it with
                      | TLit c => [c]
                      | TGroup g => group_text s mk g
                      end) tmpl.

(** ** [re.sub]

    The scan replaces the leftmost match, then goes on after it.  [skip]
    counts the characters of the last match that are still to be passed.
    An empty match is replaced and the next match at the same position
    must advance. *)
Fixpoint sub_scan (prog : list op) (tmpl : list titem) (s : text) (skip : nat)
  : text :=
  match skip with
  | S k => match s with
           | [] => []
           | _ :: s' => sub_scan prog tmpl s' k
           end
  | O =>
    match match_at prog false s with
    | Some (S e, mk) =>
      expand tmpl s mk ++
      match s with [] => [] | _ :: s' => sub_scan prog tmpl s' e end
    | Some (O, mk) =>
      expand tmpl s mk ++
      match match_at prog true s with
      | Some (S e, mk') =>
        expand tmpl s mk' ++
        match s with [] => [] | _ :: s' => sub_scan prog tmpl s' e end
      | _ => match s with [] => [] | c :: s' => c :: sub_scan prog tmpl s' 0 end
      end
    | None => match s with [] => [] | c :: s' => c :: sub_scan prog tmpl s' 0 end
    end
  end.

(** [re.sub(pattern, repl, string, flags=...)]; [None] is [re.error]. *)
Definition re_sub (pattern repl : string) (content : text) (dotall : bool)
  : option text :=
  '(prog, ngroups) ← compile pattern dotall;
  tmpl ← parse_template ngroups (str repl);
  Some (sub_scan prog tmpl content 0).

(** ** The three substitutions of the script

    The pattern and replacement strings are those of the script, character
    for character ([r'...'] strings are raw: the backslashes reach [re]). *)

Definition ExitVehicleRequest_pattern : string :=
  "(public static class ExitVehicleRequest \{\s*private String ticketNumber;\s*)\}".

Definition ExitVehicleRequest_repl : string :=
  "\1\n        public String getTicketNumber() { return ticketNumber; }\n        public void setTicketNumber(String ticketNumber) { this.ticketNumber = ticketNumber; }\n    }".

Definition ReserveSpotRequest_pattern : string :=
  "(public static class ReserveSpotRequest \{\s*private String spotNumber;\s*private int durationMinutes;\s*)\}".

Definition ReserveSpotRequest_repl : string :=
  "\1\n        public String getSpotNumber() { return spotNumber; }\n        public int getDurationMinutes() { return durationMinutes; }\n        public void setSpotNumber(String spotNumber) { this.spotNumber = spotNumber; }\n        public void setDurationMinutes(int durationMinutes) { this.durationMinutes = durationMinutes; }\n    }".

Definition ParkingLotStatus_pattern : string :=
  "public static class ParkingLotStatus \{[^}]*\}".

Definition ParkingLotStatus_repl : string :=
  "public static class ParkingLotStatus {
        private Map<ParkingSpotType, Long> availableSpots;
        private double occupancyRate;
        private int activeTickets;
        
        public ParkingLotStatus(Map<ParkingSpotType, Long> availableSpots, double occupancyRate, int activeTickets) {
            this.availableSpots = availableSpots;
            this.occupancyRate = occupancyRate;
            this.activeTickets = activeTickets;
        }
        
        public Map<ParkingSpotType, Long> getAvailableSpots() { return availableSpots; }
        public double getOccupancyRate() { return occupancyRate; }
        public int getActiveTickets() { return activeTickets; }
    }".

(** [# Add getters to ExitVehicleRequest] *)
Definition sub_ExitVehicleRequest (content : text) : option text :=
  re_sub ExitVehicleRequest_pattern ExitVehicleRequest_repl content true.

(** [# Add getters to ReserveSpotRequest] *)
Definition sub_ReserveSpotRequest (content : text) : option text :=
  re_sub ReserveSpotRequest_pattern ReserveSpotRequest_repl content true.

(** [# Fix ParkingLotStatus constructor] *)
Definition sub_ParkingLotStatus (content : text) : option text :=
  re_sub ParkingLotStatus_pattern ParkingLotStatus_repl content true.

(** The three substitutions in the order of the script. *)
Definition transform (content : text) : option text :=
  content ← sub_ExitVehicleRequest content;
  content ← sub_ReserveSpotRequest content;
  sub_ParkingLotStatus content.

(** ** The world of the script

    A file holds the text that [read()] returns for it (decoding and newline
    translation lie below this world; the world [Disk] further down has
    them); [f_data = None] is a file whose bytes the codec refuses, so that
    [read()] raises. *)

Inductive exn :=
| OSError              (* FileNotFoundError, PermissionError, ... *)
| UnicodeDecodeError
| ReError.             (* re.error *)

Record file := File {
  f_readable : bool;
  f_writable : bool;
  f_data : option text
}.

Inductive event :=
| EvOpen (path : string) (mode : ascii)
| EvRead (path : string)
| EvWrite (path : string) (data : text)
| EvClose (path : string).

Record world := World {
  fs : gmap string file;
  stdout : list text;      (* the lines printed *)
  log : list event         (* the file operations performed, oldest first *)
}.

Inductive res (A : Type) :=
| Ok (a : A)
| Raise (e : exn).
Arguments Ok {A} a.
Arguments Raise {A} e.

Definition M (A : Type) : Type := world -> res A * world.

Definition ret {A} (a : A) : M A := fun w => (Ok a, w).

Definition bind {A B} (c : M A) (k : A -> M B) : M B :=
  fun w => match c w with
           | (Ok a, w') => k a w'
           | (Raise e, w') => (Raise e, w')
           end.

Definition raise {A} (e : exn) : M A := fun w => (Raise e, w).

(** [try: c finally: h] *)
Definition finally {A} (c : M A) (h : M unit) : M A :=
  fun w => match c w with
           | (r, w') => match h w' with
                        | (Ok _, w'') => (r, w'')
                        | (Raise e, w'') => (Raise e, w'')
                        end
           end.

Notation "x <~ c ;; k" := (bind c (fun x => k))
  (at level 100, c at next level, right associativity).
Notation "c ;;; k" := (bind c (fun _ => k))
  (at level 100, right associativity).

Definition emit (e : event) : M unit :=
  fun w => (Ok tt, World (fs w) (stdout w) (log w ++ [e])).

(** [open(path, 'r')] *)
Definition open_r (path : string) : M unit :=
  fun w => match fs w !! path with
           | Some f => if f_readable f then emit (EvOpen path "r") w
                       else (Raise OSError, w)
           | None => (Raise OSError, w)
           end.

(** [f.read()] *)
Definition read (path : string) : M text :=
  fun w => match fs w !! path with
           | Some f => match f_data f with
                       | Some t => (emit (EvRead path) ;;; ret t) w
                       | None => (Raise UnicodeDecodeError, w)
                       end
           | None => (Raise OSError, w)
           end.

(** [open(path, 'w')]: creates or truncates the file. *)
Definition open_w (path : string) : M unit :=
  fun w => match fs w !! path with
           | Some f =>
             if f_writable f
             then emit (EvOpen path "w")
                    (World (<[path := File (f_readable f) true (Some [])]> (fs w))
                           (stdout w) (log w))
             else (Raise OSError, w)
           | None =>
             emit (EvOpen path "w")
               (World (<[path := File true true (Some [])]> (fs w))
                      (stdout w) (log w))
           end.

(** [f.write(data)] on a file opened with ['w'] *)
Definition write (path : string) (data : text) : M unit :=
  fun w => match fs w !! path with
           | Some f =>
             emit (EvWrite path data)
               (World (<[path := File (f_readable f) (f_writable f)
                                      (Some (default [] (f_data f) ++ data))]> (fs w))
                      (stdout w) (log w))
           | None => (Raise OSError, w)
           end.

Definition close (path : string) : M unit := emit (EvClose path).

(** [with open(path, mode) as f: body] *)
Definition with_open {A} (opn : string -> M unit) (path : string) (body : M A)
  : M A :=
  opn path ;;; finally body (close path).

(** [print(line)] *)
Definition print (line : string) : M unit :=
  fun w => (Ok tt, World (fs w) (stdout w ++ [str line]) (log w)).

Definition lift_re {A} (o : option A) : M A :=
  match o with
  | Some a => ret a
  | None => raise ReError
  end.

(** ** The script *)

Definition controller_file : string :=
  "src/main/java/com/lld/parkinglot/controller/ParkingLotController.java".

Definition confirmation : string := "Added getters to controller DTO classes".

Definition script : M unit :=
  content <~ with_open open_r controller_file (read controller_file) ;;
  content <~ lift_re (sub_ExitVehicleRequest content) ;;
  content <~ lift_re (sub_ReserveSpotRequest content) ;;
  content <~ lift_re (sub_ParkingLotStatus content) ;;
  with_open open_w controller_file (write controller_file content) ;;;
  print confirmation.

(** The interpreter exits with status 0 when the module body returns and
    with status 1 on an uncaught exception. *)
Definition exit_status (r : res unit) : nat :=
  match r with
  | Ok _ => 0%nat
  | Raise _ => 1%nat
  end.

Definition run (w : world) : nat * world :=
  let (r, w') := script w in (exit_status r, w').

(** The path that a file operation is about. *)
Definition event_path (e : event) : string :=
  match e with
  | EvOpen p _ | EvRead p | EvWrite p _ | EvClose p => p
  end.

(** ** The file on disk

    [open(path, 'r')] and [open(path, 'w')] open the file in text mode with
    the default arguments.  The bytes of the file are decoded, strictly, with
    the encoding of the locale: UTF-8 here, as on a POSIX system with a
    UTF-8 locale and in Python's UTF-8 mode.  [newline=None] selects
    universal newlines: on reading, ['\r\n'] and ['\r'] come out as
    ['\n']; on writing, ['\n'] goes out as [os.linesep].  The world above
    holds for each file the text that results; the world [Disk] below holds
    the bytes. *)

Abbreviation bytes := (list N).

(** A byte [10xxxxxx]. *)

Definition utf8_continuation (b : N) : bool := (128 <=? b) && (b <? 192).

(** [bytes.decode('utf-8')]: the shortest form only, no surrogates, nothing
    above U+10FFFF; [None] is [UnicodeDecodeError]. *)
Fixpoint utf8_decode (bs : bytes) : option text :=
  match bs with
  | [] => Some []
  | b0 :: r0 =>
    if b0 <? 128 then cons b0 <$> utf8_decode r0
    else
      match r0 with
      | [] => None
      | b1 :: r1 =>
        if (194 <=? b0) && (b0 <? 224) then
          if utf8_continuation b1
          then cons ((b0 - 192) * 64 + (b1 - 128)) <$> utf8_decode r1
          else None
        else
          match r1 with
          | [] => None
          | b2 :: r2 =>
            if (224 <=? b0) && (b0 <? 240) then
              if ((if b0 =? 224 then 160 else 128) <=? b1)
                 && (b1 <? (if b0 =? 237 then 160 else 192))
                 && utf8_continuation b2
              then cons (((b0 - 224) * 64 + (b1 - 128)) * 64 + (b2 - 128))
                     <$> utf8_decode r2
              else None
            else
              match r2 with
              | [] => None
              | b3 :: r3 =>
                if (240 <=? b0) && (b0 <? 245) then
                  if ((if b0 =? 240 then 144 else 128) <=? b1)
                     && (b1 <? (if b0 =? 244 then 144 else 192))
                     && utf8_continuation b2 && utf8_continuation b3
                  then cons ((((b0 - 240) * 64 + (b1 - 128)) * 64
                              + (b2 - 128)) * 64 + (b3 - 128))
                         <$> utf8_decode r3
                  else None
                else None
              end
          end
      end
  end.

(** [str.encode('utf-8')]; [None] is [UnicodeEncodeError] (a surrogate). *)
Definition utf8_encode_char (c : char) : option bytes :=
  if c <? 128 then Some [c]
  else if c <? 2048 then Some [192 + c / 64; 128 + c mod 64]
  else if c <? 65536 then
    if (55296 <=? c) && (c <? 57344) then None
    else Some [224 + c / 4096; 128 + (c / 64) mod 64; 128 + c mod 64]
  else if c <? 1114112 then
    Some [240 + c / 262144; 128 + (c / 4096) mod 64;
          128 + (c / 64) mod 64; 128 + c mod 64]
  else None.

Fixpoint utf8_encode (t : text) : option bytes :=
  match t with
  | [] => Some []
  | c :: t' => b ← utf8_encode_char c; bs ← utf8_encode t'; Some (b ++ bs)
  end.


(** [newline=None] on reading: universal newlines.  The decoded text goes
    through [replace("\r\n", "\n")] and then [replace("\r", "\n")]. *)
Fixpoint replace_crlf (s : text) : text :=
  match s with
  | [] => []
  | c :: s' =>
    match s' with
    | d :: s'' =>
      if (c =? 13) && (d =? 10) then 10 :: replace_crlf s''
      else c :: replace_crlf s'
    | [] => [c]
    end
  end.

Definition universal_newlines (s : text) : text :=
  map (fun c => if c =? 13 then 10 else c) (replace_crlf s).

(** [newline=None] on writing: every ['\n'] goes out as [os.linesep]. *)
Definition write_newlines (linesep s : text) : text :=
  flat_map (fun c => if c =? 10 then linesep else [c]) s.

(** What [read()] returns for a file with the bytes [bs], and the bytes
    that [write(t)] puts into the file. *)
Definition text_of (bs : bytes) : option text :=
  universal_newlines <$> utf8_decode bs.

Definition bytes_of (linesep t : text) : option bytes :=
  utf8_encode (write_newlines linesep t).

(** *** The script over the bytes

    The same statements as in [script], with [read] and [write] going
    through the codec and the newline translation. *)

Module Disk.

Inductive exn :=
| OSError
| UnicodeDecodeError
| UnicodeEncodeError
| ReError.

Record file := File {
  readable : bool;
  writable : bool;
  data : bytes
}.

(** The system the script runs on, as [os.name] tells it, and its
    [os.linesep]. *)
Inductive platform := posix | nt.

Definition linesep (p : platform) : text :=
  match p with
  | posix => [10]
  | nt => [13; 10]
  end.

Record world := World {
  fs : gmap string file;
  stdout : list text;
  log : list event;
  os : platform
}.

Inductive res (A : Type) :=
| Ok (a : A)
| Raise (e : exn).
Arguments Ok {A} a.
Arguments Raise {A} e.

Definition M (A : Type) : Type := world -> res A * world.

Definition ret {A} (a : A) : M A := fun w => (Ok a, w).

Definition bind {A B} (c : M A) (k : A -> M B) : M B :=
  fun w => match c w with
           | (Ok a, w') => k a w'
           | (Raise e, w') => (Raise e, w')
           end.

Definition raise {A} (e : exn) : M A := fun w => (Raise e, w).

Definition finally {A} (c : M A) (h : M unit) : M A :=
  fun w => match c w with
           | (r, w') => match h w' with
                        | (Ok _, w'') => (r, w'')
                        | (Raise e, w'') => (Raise e, w'')
                        end
           end.

Definition emit (e : event) : M unit :=
  fun w => (Ok tt, World (fs w) (stdout w) (log w ++ [e]) (os w)).

(** [open(path, 'r')] *)
Definition open_r (path : string) : M unit :=
  fun w => match fs w !! path with
           | Some f => if readable f then emit (EvOpen path "r") w
                       else (Raise OSError, w)
           | None => (Raise OSError, w)
           end.

(** [f.read()]: the bytes of the file, decoded, with universal newlines *)
Definition read (path : string) : M text :=
  fun w => match fs w !! path with
           | Some f => match text_of (data f) with
                       | Some t => bind (emit (EvRead path)) (fun _ => ret t) w
                       | None => (Raise UnicodeDecodeError, w)
                       end
           | None => (Raise OSError, w)
           end.

(** [open(path, 'w')]: creates or truncates the file. *)
Definition open_w (path : string) : M unit :=
  fun w => match fs w !! path with
           | Some f =>
             if writable f
             then emit (EvOpen path "w")
                    (World (<[path := File (readable f) true []]> (fs w))
                           (stdout w) (log w) (os w))
             else (Raise OSError, w)
           | None =>
             emit (EvOpen path "w")
               (World (<[path := File true true []]> (fs w))
                      (stdout w) (log w) (os w))
           end.

(** [f.write(data)]: newlines translated, the text encoded, the bytes put
    after those that the file holds *)
Definition write (path : string) (t : text) : M unit :=
  fun w => match fs w !! path with
           | Some f =>
             match bytes_of (linesep (os w)) t with
             | Some bs =>
               emit (EvWrite path t)
                 (World (<[path := File (readable f) (writable f)
                                        (data f ++ bs)]> (fs w))
                        (stdout w) (log w) (os w))
             | None => (Raise UnicodeEncodeError, w)
             end
           | None => (Raise OSError, w)
           end.

Definition close (path : string) : M unit := emit (EvClose path).

Definition with_open {A} (opn : string -> M unit) (path : string) (body : M A)
  : M A :=
  bind (opn path) (fun _ => finally body (close path)).

Definition print (line : string) : M unit :=
  fun w => (Ok tt, World (fs w) (stdout w ++ [str line]) (log w) (os w)).

Definition lift_re {A} (o : option A) : M A :=
  match o with
  | Some a => ret a
  | None => raise ReError
  end.

Definition script : M unit :=
  bind (with_open open_r controller_file (read controller_file))
    (fun content =>
  bind (lift_re (sub_ExitVehicleRequest content)) (fun content =>
  bind (lift_re (sub_ReserveSpotRequest content)) (fun content =>
  bind (lift_re (sub_ParkingLotStatus content)) (fun content =>
  bind (with_open open_w controller_file (write controller_file content))
    (fun _ =>
  print confirmation))))).

Definition exit_status (r : res unit) : nat :=
  match r with
  | Ok _ => 0%nat
  | Raise _ => 1%nat
  end.

Definition run (w : world) : nat * world :=
  let (r, w') := script w in (exit_status r, w').

End Disk.


(** ** Vocabulary of the properties *)

Local Open Scope nat_scope.

Definition lb : char := chr "{".

Definition rb : char := chr "}".

Definition occurrences (c : char) (l : text) : nat :=
  length (filter (fun d => d = c) l).

(** The program of a literal run. *)
Definition lits (l : text) : list op := map (fun c => One (SetLit c)) l.

Definition in_set (cs : cset) (l : text) : Prop :=
  Forall (fun c => cset_mem cs c = true) l.

(** What [\s*] matches: any run of whitespace. *)
Definition whitespace (ws : text) : Prop :=
  Forall (fun c => Py_UNICODE_ISSPACE c = true) ws.

(** The first literal that a program asks for. *)
Fixpoint head_lit (k : list op) : option char :=
  match k with
  | Mark _ :: k' => head_lit k'
  | One (SetLit d) :: _ => Some d
  | _ => None
  end.

(** The scan of [re.sub] from the start of the text. *)
Definition scan (prog : list op) (tmpl : list titem) (s : text) : text :=
  sub_scan prog tmpl s 0.

(** All three patterns match a body [m] without ['}'] followed by ['}'];
    [L] is the set of bodies.  The pattern occurs nowhere in [s]: *)
Definition absent (L : text -> Prop) (s : text) : Prop :=
  forall pre m post, L m -> s <> pre ++ m ++ rb :: post.

(** Inert text: no match reaches into it, none begins in it. *)
Definition inert (prog : list op) (L : text -> Prop) (X : text) : Prop :=
  (forall p post m rest,
      p ++ X ++ post = m ++ rb :: rest -> L m -> length m < length p) /\
  (forall x1 x2 post,
      X = x1 ++ x2 -> x2 <> [] -> match_at prog false (x2 ++ post) = None).

(** No suffix of [s] matches: a check that decides [absent]. *)
Fixpoint no_match_from (prog : list op) (s : text) : bool :=
  match match_at prog false s with
  | Some _ => false
  | None => match s with
            | [] => true
            | _ :: s' => no_match_from prog s'
            end
  end.

(** The text after the last [c], if there is a [c]. *)
Fixpoint after_last (c : char) (l : text) : option text :=
  match l with
  | [] => None
  | d :: l' =>
    match after_last c l' with
    | Some t => Some t
    | None => if (d =? c)%N then Some l' else None
    end
  end.

(** The segments that end in ['}'], and what follows the last ['}']. *)
Fixpoint split_rb (l : text) : list text * text :=
  match l with
  | [] => ([], [])
  | d :: l' =>
    let (ss, tr) := split_rb l' in
    if (d =? rb)%N then ([] :: ss, tr)
    else match ss with
         | [] => ([], d :: tr)
         | sg :: ss' => ((d :: sg) :: ss', tr)
         end
  end.

Definition join (ss : list text) : text := flat_map (fun sg => sg ++ [rb]) ss.

(** A segment in which nothing after the last ['{'] holds a ['v']: no block
    with a [private] field ends there. *)
Definition seg_free (sg : text) : Prop :=
  forall sg0 sg1, sg = sg0 ++ lb :: sg1 -> lb ∉ sg1 -> chr "v" ∉ sg1.

Definition seg_ok (sg : text) : bool :=
  match after_last lb sg with
  | Some t => forallb (fun c => negb (c =? chr "v")%N) t
  | None => true
  end.

(** A block with its accessors and its closing brace. *)
Definition with_accessors (accessors m : text) : text := m ++ accessors ++ [rb].

(** The accessors split at their braces into segments, the first with a
    ['{'], in none of which a block of fields can end. *)
Definition accessors_inert (accessors : text) : bool :=
  match split_rb (accessors ++ [rb]) with
  | (A :: ss, []) => bool_decide (lb ∈ A) && forallb seg_ok (A :: ss)
  | _ => false
  end.

(** The text before the first [c] and the text after it. *)
Fixpoint before (c : char) (l : text) : text :=
  match l with
  | [] => []
  | d :: l' => if (d =? c)%N then [] else d :: before c l'
  end.

Fixpoint after (c : char) (l : text) : text :=
  match l with
  | [] => []
  | d :: l' => if (d =? c)%N then l' else after c l'
  end.

(** A body of [L] ends the segment. *)
Definition ends_in (L : text -> Prop) (sg : text) : Prop :=
  exists x m, L m /\ sg = x ++ m.

(** The first segment of the accessors and the segments after it. *)
Definition first_segment (accessors : text) : text :=
  hd [] (fst (split_rb (accessors ++ [rb]))).

Definition other_segments (accessors : text) : list text :=
  tl (fst (split_rb (accessors ++ [rb]))).

(** A text made of gaps and blocks, each block [m] closed by its brace,
    and the same text with every block replaced by [R m]. *)
Fixpoint blocks (bs : list (text * text)) (tl : text) : text :=
  match bs with
  | [] => tl
  | (gap, m) :: bs' => gap ++ m ++ rb :: blocks bs' tl
  end.

Fixpoint replaced (R : text -> text) (bs : list (text * text)) (tl : text)
  : text :=
  match bs with
  | [] => tl
  | (gap, m) :: bs' => gap ++ R m ++ replaced R bs' tl
  end.

Fixpoint starts_with (p s : text) : bool :=
  match p, s with
  | [], _ => true
  | a :: p', b :: s' => (a =? b)%N && starts_with p' s'
  | _ :: _, [] => false
  end.

(** The number of places of [s] where [p] occurs. *)
Fixpoint count_sub (p s : text) : nat :=
  (if starts_with p s then 1 else 0)
  + match s with
    | [] => 0
    | _ :: s' => count_sub p s'
    end.

(** What follows the first occurrence of [p] in [s]. *)
Fixpoint after_first (p s : text) : option text :=
  if starts_with p s then Some (drop (length p) s)
  else match s with
       | [] => None
       | _ :: s' => after_first p s'
       end.

(** The texts [ps] occur in [s] one after the other, in this order. *)
Fixpoint in_order (ps : list text) (s : text) : bool :=
  match ps with
  | [] => true
  | p :: ps' => match after_first p s with
                | Some s' => in_order ps' s'
                | None => false
                end
  end.

(** ** Operation 1: the ExitVehicleRequest block *)

Module EVR.

Definition header : text := str "public static class ExitVehicleRequest {".

Definition field : text := str "private String ticketNumber;".

(** The getter and the setter, as they stand in the patched file. *)
Definition accessors : text := str "
        public String getTicketNumber() { return ticketNumber; }
        public void setTicketNumber(String ticketNumber) { this.ticketNumber = ticketNumber; }
    ".

(** The block up to its closing brace. *)
Definition body (ws1 ws2 : text) : text := header ++ ws1 ++ field ++ ws2.

Definition is_body (m : text) : Prop :=
  exists ws1 ws2, whitespace ws1 /\ whitespace ws2 /\ m = body ws1 ws2.

(** What the block becomes. *)
Definition patched (m : text) : text := m ++ accessors ++ [rb].

(** The pattern occurs somewhere in the text. *)
Definition present (s : text) : Prop :=
  exists pre ws1 ws2 post,
    whitespace ws1 /\ whitespace ws2 /\ s = pre ++ body ws1 ws2 ++ rb :: post.

(** What [compile] makes of the pattern and [parse_template] of the
    replacement, written by their parts. *)
Definition prog : list op :=
  Mark 0 :: lits header ++ Star SetSpace :: lits field
    ++ [Star SetSpace; Mark 1; One (SetLit rb)].

Definition tmpl : list titem := TGroup 1 :: map TLit (accessors ++ [rb]).

Definition header0 : text := removelast header.

End EVR.

(** ** Operation 2: the ReserveSpotRequest block *)

Module RSR.

Definition header : text := str "public static class ReserveSpotRequest {".

Definition field1 : text := str "private String spotNumber;".

Definition field2 : text := str "private int durationMinutes;".

(** The two getters, then the two setters. *)
Definition accessors : text := str "
        public String getSpotNumber() { return spotNumber; }
        public int getDurationMinutes() { return durationMinutes; }
        public void setSpotNumber(String spotNumber) { this.spotNumber = spotNumber; }
        public void setDurationMinutes(int durationMinutes) { this.durationMinutes = durationMinutes; }
    ".

Definition body (ws1 ws2 ws3 : text) : text :=
  header ++ ws1 ++ field1 ++ ws2 ++ field2 ++ ws3.

Definition is_body (m : text) : Prop :=
  exists ws1 ws2 ws3,
    whitespace ws1 /\ whitespace ws2 /\ whitespace ws3 /\ m = body ws1 ws2 ws3.

Definition patched (m : text) : text := m ++ accessors ++ [rb].

Definition present (s : text) : Prop :=
  exists pre ws1 ws2 ws3 post,
    whitespace ws1 /\ whitespace ws2 /\ whitespace ws3 /\
    s = pre ++ body ws1 ws2 ws3 ++ rb :: post.

(** The compiled pattern and the parsed replacement. *)
Definition prog : list op :=
  Mark 0 :: lits header ++ Star SetSpace :: lits field1
    ++ Star SetSpace :: lits field2
    ++ [Star SetSpace; Mark 1; One (SetLit rb)].

Definition tmpl : list titem := TGroup 1 :: map TLit (accessors ++ [rb]).

Definition header0 : text := removelast header.

End RSR.

(** ** Operation 3: the ParkingLotStatus span *)

Module PLS.

Definition header : text := str "public static class ParkingLotStatus {".

(** The class that replaces every match: three fields, the constructor
    and three getters. *)
Definition fixed : text := str ParkingLotStatus_repl.

(** A match without its last character: the header, then anything but
    a closing brace. *)
Definition is_body (m : text) : Prop :=
  exists inside, (rb ∉ inside) /\ m = header ++ inside.

Definition present (s : text) : Prop :=
  exists pre inside post,
    (rb ∉ inside) /\ s = pre ++ header ++ inside ++ rb :: post.

(** The header occurs in the text. *)
Definition has_header (s : text) : Prop :=
  exists a b, s = a ++ header ++ b.

(** The compiled pattern and the parsed replacement. *)
Definition prog : list op :=
  lits header ++ [Star (SetNotLit rb); One (SetLit rb)].

Definition tmpl : list titem := map TLit fixed.

End PLS.

(** ** Runs and traces *)

(** [n] runs of the three rules, each on the output of the one before. *)
Fixpoint transform_n (n : nat) (t : text) : option text :=
  match n with
  | 0 => Some t
  | S n' => u ← transform t; transform_n n' u
  end.

(** The file handles of a trace, [h] being the handle that is open (its path
    and mode).  The trace is well bracketed when a file is opened only
    while no handle is open, read only through a handle opened with ['r'],
    written only through a handle opened with ['w'], closed only through
    its open handle, and no handle is open at the end. *)
Fixpoint well_bracketed (h : option (string * ascii)) (evs : list event)
  : bool :=
  match evs with
  | [] => bool_decide (h = None)
  | EvOpen p m :: evs' =>
    bool_decide (h = None) && well_bracketed (Some (p, m)) evs'
  | EvRead p :: evs' =>
    bool_decide (h = Some (p, "r"%char)) && well_bracketed h evs'
  | EvWrite p _ :: evs' =>
    bool_decide (h = Some (p, "w"%char)) && well_bracketed h evs'
  | EvClose p :: evs' =>
    bool_decide (fst <$> h = Some p) && well_bracketed None evs'
  end.

(** A segment in which no block with the field [fld] ends: [fld] does not
    occur after the last ['{']. *)
Definition seg_dead (fld sg : text) : bool :=
  match after_last lb sg with
  | Some t => count_sub fld t =? 0
  | None => true
  end.

(** * Properties *)

(** ** Lists *)

(** A list splits at the first occurrence of [c] in one way only. *)
Lemma split_first_unique (c : char) (x x' y y' : text) :
  x ++ c :: y = x' ++ c :: y' -> c ∉ x -> c ∉ x' -> x = x' /\ y = y'.
Proof.
  revert x'. induction x as [|a x IH]; intros [|a' x'] E Hx Hx'; simpl in E.
  - by inversion E.
  - inversion E; subst. exfalso. apply Hx'. left.
  - inversion E; subst. exfalso. apply Hx. left.
  - inversion E; subst.
    destruct (IH x') as [-> ->]; auto.
    + intros ?; apply Hx; by right.
    + intros ?; apply Hx'; by right.
Qed.

(** The same at the last occurrence. *)
Lemma split_last_unique (c : char) (x x' y y' : text) :
  x ++ c :: y = x' ++ c :: y' -> c ∉ y -> c ∉ y' -> x = x' /\ y = y'.
Proof.
  intros E Hy Hy'.
  assert (E' : reverse y ++ c :: reverse x = reverse y' ++ c :: reverse x').
  { apply (f_equal reverse) in E.
    by rewrite !reverse_app, !reverse_cons, <- !(assoc_L (++)) in E. }
  apply split_first_unique in E' as [E1 E2].
  - split; apply (inj reverse); done.
  - by rewrite elem_of_reverse.
  - by rewrite elem_of_reverse.
Qed.

(** Where a cut of [a ++ b] falls. *)
Lemma cut_app (x1 x2 a b : text) :
  x1 ++ x2 = a ++ b ->
  (exists a2, a = x1 ++ a2 /\ x2 = a2 ++ b) \/
  (exists b1, b1 <> [] /\ x1 = a ++ b1 /\ b = b1 ++ x2).
Proof.
  revert a. induction x1 as [|c x1 IH]; intros a E; simpl in E.
  - left. exists a. by subst.
  - destruct a as [|c' a]; simpl in E.
    + right. exists (c :: x1). by subst.
    + inversion E; subst.
      destruct (IH a) as [(a2 & -> & ->)|(b1 & ? & -> & ->)]; [done|..].
      * left. by exists a2.
      * right. by exists b1.
Qed.

Lemma occurrences_app c l1 l2 :
  occurrences c (l1 ++ l2) = occurrences c l1 + occurrences c l2.
Proof. unfold occurrences. by rewrite filter_app, length_app. Qed.

Lemma occurrences_none c l : c ∉ l <-> occurrences c l = 0.
Proof.
  unfold occurrences. induction l as [|a l IH]; simpl.
  - split; [done|]. intros _ H. inversion H.
  - rewrite filter_cons. case_decide as E; simpl.
    + split; [|done]. intros H. exfalso. apply H. subst. left.
    + rewrite <- IH, not_elem_of_cons. split; [by intros [_ ?]|by split].
Qed.

Lemma starts_with_app p b : starts_with p (p ++ b) = true.
Proof. induction p as [|c p IH]; simpl; [done|]. by rewrite N.eqb_refl. Qed.

Lemma count_sub_occurs a p b : 0 < count_sub p (a ++ p ++ b).
Proof.
  induction a as [|c a IH]; simpl; [|lia].
  assert (E : forall s, starts_with p s = true -> 0 < count_sub p s).
  { intros [|d s] H; simpl; rewrite H; lia. }
  apply E, starts_with_app.
Qed.

(** ** The matcher on literal runs and on greedy repetitions *)

Lemma sre_match_lits l k adv s pos mk :
  sre_match (lits l ++ k) adv (l ++ s) pos mk
  = sre_match k adv s (pos + length l) mk.
Proof.
  revert pos. induction l as [|c l IH]; intros pos; simpl.
  - by rewrite Nat.add_0_r.
  - rewrite N.eqb_refl, IH. f_equal. lia.
Qed.

Lemma sre_match_lits_inv l k adv s pos mk r :
  sre_match (lits l ++ k) adv s pos mk = Some r ->
  exists s', s = l ++ s' /\ sre_match k adv s' (pos + length l) mk = Some r.
Proof.
  revert s pos. induction l as [|c l IH]; intros s pos H; simpl in *.
  - exists s. by rewrite Nat.add_0_r.
  - destruct s as [|d s]; [done|].
    destruct (N.eqb_spec d c) as [->|]; [|done].
    apply IH in H as (s' & -> & H). exists s'. split; [done|].
    rewrite <- H. f_equal. lia.
Qed.

Lemma count_in_app cs ws s :
  in_set cs ws -> count_in cs (ws ++ s) = length ws + count_in cs s.
Proof.
  induction 1 as [|c ws Hc _ IH]; simpl; [done|]. by rewrite Hc, IH.
Qed.

Lemma count_in_take cs s : in_set cs (take (count_in cs s) s).
Proof.
  induction s as [|c s IH]; simpl; [constructor|].
  destruct (cset_mem cs c) eqn:E; simpl; by constructor.
Qed.

Lemma count_in_drop cs s j :
  j < count_in cs s ->
  exists c s', drop j s = c :: s' /\ cset_mem cs c = true.
Proof.
  revert j. induction s as [|c s IH]; intros j Hj; simpl in *; [lia|].
  destruct (cset_mem cs c) eqn:E; [|lia].
  destruct j as [|j]; simpl; [eauto|]. apply IH. lia.
Qed.

Lemma repeat_back_none {R} (k : text -> nat -> option R) s pos n :
  (forall j, j <= n -> k (drop j s) (pos + j) = None) ->
  repeat_back k s pos n = None.
Proof.
  induction n as [|n IH]; intros H; simpl.
  - by rewrite (H 0).
  - rewrite (H (S n)); [|lia]. apply IH. intros j Hj. apply H. lia.
Qed.

Lemma repeat_back_last {R} (k : text -> nat -> option R) s pos n :
  (forall j, j < n -> k (drop j s) (pos + j) = None) ->
  repeat_back k s pos n = k (drop n s) (pos + n).
Proof.
  intros H. destruct n as [|n]; simpl.
  - by destruct (k _ _).
  - destruct (k _ _) eqn:E; [done|].
    apply repeat_back_none. intros j Hj. apply H. lia.
Qed.

Lemma head_lit_rejects k d cs adv c s pos mk :
  head_lit k = Some d -> cset_mem cs d = false -> cset_mem cs c = true ->
  sre_match k adv (c :: s) pos mk = None.
Proof.
  intros Hk Hd Hc. revert mk Hk.
  induction k as [|[[d'| | |]| |i] k IH]; intros mk Hk; simpl in *; try done.
  - inversion Hk; subst.
    destruct (N.eqb_spec c d) as [->|]; [congruence|done].
  - by apply IH.
Qed.

(** A greedy repetition followed by a literal outside its set never gives
    a character back: it takes the whole run. *)
Lemma sre_match_star cs k d adv s pos mk :
  head_lit k = Some d -> cset_mem cs d = false ->
  sre_match (Star cs :: k) adv s pos mk
  = sre_match k adv (drop (count_in cs s) s) (pos + count_in cs s) mk.
Proof.
  intros Hk Hd. simpl. apply repeat_back_last. intros j Hj.
  destruct (count_in_drop cs s j Hj) as (c & s' & -> & Hc).
  by eapply head_lit_rejects.
Qed.

Lemma sre_match_star_run cs k d adv ws s pos mk :
  head_lit k = Some d -> cset_mem cs d = false ->
  in_set cs ws -> count_in cs s = 0 ->
  sre_match (Star cs :: k) adv (ws ++ s) pos mk
  = sre_match k adv s (pos + length ws) mk.
Proof.
  intros Hk Hd Hws Hs.
  rewrite (sre_match_star cs k d), count_in_app, Hs, Nat.add_0_r by done.
  by rewrite drop_app_length.
Qed.

Lemma sre_match_star_inv cs k d adv s pos mk r :
  head_lit k = Some d -> cset_mem cs d = false ->
  sre_match (Star cs :: k) adv s pos mk = Some r ->
  exists ws s', s = ws ++ s' /\ in_set cs ws /\
                sre_match k adv s' (pos + length ws) mk = Some r.
Proof.
  intros Hk Hd H. rewrite (sre_match_star cs k d) in H by done.
  exists (take (count_in cs s) s), (drop (count_in cs s) s).
  split; [by rewrite take_drop|]. split; [apply count_in_take|].
  rewrite length_take_le; [done|].
  clear. induction s as [|c s IH]; simpl; [lia|].
  destruct (cset_mem cs c); simpl; lia.
Qed.

(** A header that ends in a character it has nowhere else cannot overlap
    a later copy of itself. *)
Lemma header_overlap (h0 : text) (c : char) (j x y : text) :
  c ∉ h0 -> j ++ (h0 ++ [c]) ++ x = (h0 ++ [c]) ++ y ->
  j = [] \/ exists j', j = (h0 ++ [c]) ++ j'.
Proof.
  intros Hc E. rewrite <- !(assoc_L (++)) in E. simpl in E.
  destruct (decide (c ∈ j)) as [Hj|Hj].
  - apply list_elem_of_split_l in Hj as (a & b & -> & Ha).
    rewrite <- (assoc_L (++)) in E. simpl in E.
    apply split_first_unique in E as [-> _]; [|done..].
    right. exists b. by rewrite <- (assoc_L (++)).
  - rewrite (assoc_L (++)) in E.
    apply split_first_unique in E as [E _]; [| |done].
    + left. apply (f_equal length) in E. rewrite length_app in E.
      destruct j; [done|]. simpl in E. lia.
    + rewrite elem_of_app. tauto.
Qed.

(** ** The scan of [re.sub] for a pattern that ends at a closing brace

    All three patterns of the script match a body [m] without ['}'] followed
    by ['}'].  The section takes the set [L] of bodies and the replacement
    [R m] of a match as parameters. *)

Section Scan.
Variables (prog : list op) (tmpl : list titem).
Variable L : text -> Prop.
Variable R : text -> text.

Hypothesis match_inv : forall adv s e mk,
  match_at prog adv s = Some (e, mk) ->
  exists m rest, L m /\ s = m ++ rb :: rest /\ e = S (length m)
                 /\ expand tmpl s mk = R m.
Hypothesis match_fwd : forall m rest,
  L m -> exists mk, match_at prog false (m ++ rb :: rest) = Some (S (length m), mk).
Hypothesis L_rb : forall m, L m -> rb ∉ m.

Lemma match_at_nil adv : match_at prog adv [] = None.
Proof.
  destruct (match_at prog adv []) as [[e mk]|] eqn:E; [|done].
  apply match_inv in E as (m & rest & _ & E & _). by destruct m.
Qed.

Lemma scan_nil : scan prog tmpl [] = [].
Proof. unfold scan. simpl. by rewrite match_at_nil. Qed.

Lemma sub_scan_skip s k : sub_scan prog tmpl s k = scan prog tmpl (drop k s).
Proof.
  revert k. induction s as [|c s IH]; intros [|k]; try done.
  - simpl sub_scan at 1. by rewrite drop_nil, scan_nil.
  - simpl sub_scan at 1. by rewrite IH.
Qed.

Lemma scan_unfold s :
  scan prog tmpl s
  = match match_at prog false s with
    | Some (e, mk) => expand tmpl s mk ++ scan prog tmpl (drop e s)
    | None => match s with [] => [] | c :: s' => c :: scan prog tmpl s' end
    end.
Proof.
  destruct s as [|c s].
  - by rewrite scan_nil, match_at_nil.
  - unfold scan at 1. simpl sub_scan.
    destruct (match_at prog false (c :: s)) as [[[|e] mk]|] eqn:E; [| |done].
    + apply match_inv in E as (? & ? & _ & _ & ? & _). done.
    + by rewrite sub_scan_skip.
Qed.

Lemma scan_miss c s :
  match_at prog false (c :: s) = None -> scan prog tmpl (c :: s) = c :: scan prog tmpl s.
Proof. intros E. by rewrite scan_unfold, E. Qed.

Lemma scan_hit m rest :
  L m -> scan prog tmpl (m ++ rb :: rest) = R m ++ scan prog tmpl rest.
Proof.
  intros Hm. destruct (match_fwd m rest Hm) as [mk E].
  rewrite scan_unfold, E.
  apply match_inv in E as (m' & rest' & Hm' & E & _ & ->).
  apply split_first_unique in E as [<- _]; [|by apply L_rb..].
  f_equal. f_equal.
  change (S (length m)) with (length [rb] + length m).
  rewrite Nat.add_comm, <- length_app.
  change (m ++ rb :: rest) with (m ++ [rb] ++ rest).
  by rewrite (assoc_L (++)), drop_app_length.
Qed.

Lemma match_extend c p rest :
  match_at prog false (c :: p ++ rest) = None ->
  match_at prog false (c :: p) = None.
Proof.
  intros E. destruct (match_at prog false (c :: p)) as [[e mk]|] eqn:E'; [|done].
  apply match_inv in E' as (m & r & Hm & E' & _).
  destruct (match_fwd m (r ++ rest) Hm) as [mk' F].
  change (c :: p ++ rest) with ((c :: p) ++ rest) in E.
  rewrite E', <- (assoc_L (++)) in E. simpl in E. congruence.
Qed.

Theorem scan_absent s : absent L s -> scan prog tmpl s = s.
Proof.
  induction s as [|c s IH]; intros Ha; [apply scan_nil|].
  rewrite scan_unfold.
  destruct (match_at prog false (c :: s)) as [[e mk]|] eqn:E.
  - apply match_inv in E as (m & rest & Hm & E & _).
    exfalso. by apply (Ha [] m rest).
  - f_equal. apply IH. intros pre m post Hm ->.
    by apply (Ha (c :: pre) m post).
Qed.

(** A block [m }] is always replaced: by itself, or as the end of a match
    that began in [junk], further to the left. *)
Theorem scan_block pre m post :
  L m ->
  exists pre1 junk, pre = pre1 ++ junk /\ L (junk ++ m) /\
    scan prog tmpl (pre ++ m ++ rb :: post)
    = scan prog tmpl pre1 ++ R (junk ++ m) ++ scan prog tmpl post.
Proof.
  intros Hm. remember (length pre) as n eqn:Hn. revert pre Hn.
  induction n as [n IH] using lt_wf_ind. intros pre ->.
  destruct pre as [|c p].
  { exists [], []. split; [done|]. split; [done|].
    simpl. by rewrite scan_hit, scan_nil. }
  destruct (match_at prog false ((c :: p) ++ m ++ rb :: post))
    as [[e mk]|] eqn:E.
  - apply match_inv in E as (m' & rest' & Hm' & E & _).
    destruct (decide (rb ∈ c :: p)) as [Hin|Hin].
    + apply list_elem_of_split_l in Hin as (a & b & Epre & Ha).
      rewrite Epre, <- (assoc_L (++)) in E. simpl in E.
      apply split_first_unique in E as [-> <-]; [|done|by apply L_rb].
      destruct (IH (length b)) with (pre := b) as (pre1 & junk & -> & HL & Hs);
        [rewrite Epre, length_app; simpl; lia|done|].
      exists (m' ++ rb :: pre1), junk. split.
      { rewrite Epre. by rewrite <- (assoc_L (++)). }
      split; [done|].
      rewrite Epre, <- (assoc_L (++)). simpl.
      rewrite !scan_hit by done.
      rewrite Hs. by rewrite <- !(assoc_L (++)).
    + rewrite (assoc_L (++)) in E.
      apply split_first_unique in E as [E _]; [| |by apply L_rb].
      2:{ rewrite elem_of_app. intros [?|?]; [done|]. by apply (L_rb m). }
      exists [], (c :: p). split; [done|]. rewrite E. split; [done|].
      rewrite (assoc_L (++)), E, scan_hit, scan_nil by done. done.
  - destruct (IH (length p)) with (pre := p) as (pre1 & junk & -> & HL & Hs);
      [simpl; lia|done|].
    exists (c :: pre1), junk. split; [done|]. split; [done|].
    simpl. rewrite scan_miss by done.
    rewrite Hs. rewrite scan_miss; [done|].
    simpl in E. rewrite <- (assoc_L (++)) in E.
    by apply match_extend in E.
Qed.

Lemma absent_cons c s :
  match_at prog false (c :: s) = None -> absent L s -> absent L (c :: s).
Proof.
  intros E Hs [|c' pre] m post Hm E'.
  - destruct (match_fwd m post Hm) as [mk F]. simpl in E'. congruence.
  - inversion E'; subst. by apply (Hs pre m post).
Qed.

(** Either nothing matches, or the text splits at its leftmost match. *)
Lemma scan_leftmost s :
  (absent L s /\ scan prog tmpl s = s) \/
  exists pre m post,
    s = pre ++ m ++ rb :: post /\ L m /\
    absent L pre /\ scan prog tmpl pre = pre /\
    scan prog tmpl s = pre ++ R m ++ scan prog tmpl post.
Proof.
  induction s as [|c s IH].
  { left. split; [|apply scan_nil]. intros [|??] ???; by destruct m. }
  destruct (match_at prog false (c :: s)) as [[e mk]|] eqn:E.
  - apply match_inv in E as (m & rest & Hm & -> & _).
    right. exists [], m, rest. simpl. rewrite scan_nil, scan_hit by done.
    repeat split; try done. intros [|??] ???; by destruct m0.
  - rewrite scan_miss by done.
    destruct IH as [[Ha ->]|(pre & m & post & -> & Hm & Ha & Hpre & ->)].
    { left. split; [|done]. by apply absent_cons. }
    right. exists (c :: pre), m, post.
    assert (E' : match_at prog false (c :: pre) = None)
      by by apply match_extend in E.
    repeat split; try done.
    + by apply absent_cons.
    + by rewrite scan_miss, Hpre.
Qed.

(** A replacement longer than its match: the scan fixes only the texts
    in which the pattern is absent. *)
Lemma scan_length s :
  (forall m, L m -> S (length m) <= length (R m)) ->
  length s <= length (scan prog tmpl s).
Proof.
  intros HR. remember (length s) as n eqn:Hn. revert s Hn.
  induction n as [n IH] using lt_wf_ind. intros s ->.
  destruct (scan_leftmost s)
    as [[_ ->]|(pre & m & post & -> & Hm & _ & _ & ->)]; [done|].
  pose proof (HR m Hm).
  assert (length post <= length (scan prog tmpl post)).
  { apply (IH (length post)); [|done]. rewrite !length_app. simpl. lia. }
  rewrite !length_app. simpl. lia.
Qed.

Lemma scan_fixed_absent s :
  (forall m, L m -> S (length m) < length (R m)) ->
  scan prog tmpl s = s -> absent L s.
Proof.
  intros HR E.
  destruct (scan_leftmost s)
    as [[H _]|(pre & m & post & -> & Hm & _ & _ & E')]; [done|].
  exfalso. rewrite E in E'. apply (f_equal length) in E'.
  pose proof (HR m Hm).
  assert (length post <= length (scan prog tmpl post)).
  { apply scan_length. intros m' Hm'. specialize (HR m' Hm'). lia. }
  rewrite !length_app in E'. simpl in E'. lia.
Qed.

(** *** Patterns whose matches cannot overlap *)

Section NoOverlap.
Hypothesis no_overlap : forall j m, L m -> L (j ++ m) -> j = [].

Theorem scan_local pre m post :
  L m ->
  scan prog tmpl (pre ++ m ++ rb :: post)
  = scan prog tmpl pre ++ R m ++ scan prog tmpl post.
Proof.
  intros Hm.
  destruct (scan_block pre m post Hm) as (pre1 & junk & -> & HL & ->).
  rewrite (no_overlap junk m Hm HL). by rewrite app_nil_r.
Qed.
End NoOverlap.

(** *** Inert text: no match begins in it, none reaches into it *)

Lemma scan_inert_here X post :
  inert prog L X -> scan prog tmpl (X ++ post) = X ++ scan prog tmpl post.
Proof.
  intros [_ H2].
  assert (G : forall x2 x1,
             X = x1 ++ x2 ->
             scan prog tmpl (x2 ++ post) = x2 ++ scan prog tmpl post).
  { induction x2 as [|c x2 IH]; intros x1 E; [done|].
    simpl. rewrite scan_miss.
    - f_equal. apply (IH (x1 ++ [c])). by rewrite <- (assoc_L (++)).
    - by apply (H2 x1 (c :: x2) post). }
  by apply (G X []).
Qed.

Theorem scan_inert X pre post :
  inert prog L X ->
  scan prog tmpl (pre ++ X ++ post)
  = scan prog tmpl pre ++ X ++ scan prog tmpl post.
Proof.
  intros HX. remember (length pre) as n eqn:Hn. revert pre Hn.
  induction n as [n IH] using lt_wf_ind. intros pre ->.
  destruct pre as [|c p]; [rewrite scan_nil; simpl; by apply scan_inert_here|].
  destruct (match_at prog false ((c :: p) ++ X ++ post)) as [[e mk]|] eqn:E.
  - apply match_inv in E as (m & rest & Hm & E & _).
    pose proof (proj1 HX _ _ _ _ E Hm) as Hlen.
    assert (exists b, c :: p = m ++ rb :: b) as [b Eb].
    { apply cut_app in E as [(a2 & E1 & E2)|(b1 & Hb1 & E1 & E2)].
      - apply (f_equal length) in E1. rewrite length_app in E1. lia.
      - destruct b1 as [|r b1]; [done|]. inversion E2; subst. eauto. }
    rewrite Eb, <- (assoc_L (++)). simpl. rewrite !scan_hit by done.
    rewrite (IH (length b)) with (pre := b); [by rewrite <- (assoc_L (++))| |done].
    rewrite Eb, length_app. simpl. lia.
  - simpl. rewrite scan_miss by done.
    rewrite (IH (length p)) with (pre := p); [|simpl; lia|done].
    rewrite scan_miss; [done|]. by apply match_extend in E.
Qed.

(** When every replacement is inert, a second scan changes nothing. *)
Theorem scan_idempotent :
  (forall m, L m -> inert prog L (R m)) ->
  forall s, scan prog tmpl (scan prog tmpl s) = scan prog tmpl s.
Proof.
  intros HR s. remember (length s) as n eqn:Hn. revert s Hn.
  induction n as [n IH] using lt_wf_ind. intros s ->.
  destruct (scan_leftmost s)
    as [[_ E]|(pre & m & post & -> & Hm & _ & Hpre & ->)]; [by rewrite !E|].
  rewrite scan_inert by auto. rewrite Hpre. do 2 f_equal.
  apply (IH (length post)); [|done].
  rewrite !length_app. simpl. lia.
Qed.
End Scan.

(** ** Splitting a text at its closing braces *)

Lemma after_last_Some c l t :
  after_last c l = Some t -> exists l0, l = l0 ++ c :: t /\ c ∉ t.
Proof.
  revert t. induction l as [|d l IH]; intros t H; simpl in H; [done|].
  destruct (after_last c l) as [t'|] eqn:E.
  - inversion H; subst. destruct (IH t eq_refl) as (l0 & -> & Ht).
    by exists (d :: l0).
  - destruct (N.eqb_spec d c) as [->|]; [|done]. inversion H; subst.
    exists []. split; [done|]. clear -E.
    induction t as [|a t IH]; [by intros ?%elem_of_nil|].
    simpl in E. destruct (after_last c t); [done|].
    destruct (N.eqb_spec a c); [done|].
    rewrite not_elem_of_cons. auto.
Qed.

Lemma after_last_None c l : after_last c l = None -> c ∉ l.
Proof.
  induction l as [|a t IH]; [by intros _ ?%elem_of_nil|].
  simpl. destruct (after_last c t); [done|].
  destruct (N.eqb_spec a c); [done|].
  rewrite not_elem_of_cons. auto.
Qed.

Lemma split_rb_join l ss tr :
  split_rb l = (ss, tr) -> l = join ss ++ tr /\ Forall (fun sg => rb ∉ sg) ss.
Proof.
  revert ss tr. induction l as [|d l IH]; intros ss tr H; simpl in H.
  - inversion H; subst. by split.
  - destruct (split_rb l) as [ss0 tr0]. destruct (IH ss0 tr0 eq_refl) as [-> Hss].
    destruct (N.eqb_spec d rb) as [->|Hd].
    + inversion H; subst. split; [done|]. constructor; [|done].
      by intros ?%elem_of_nil.
    + destruct ss0 as [|sg ss0]; inversion H; subst; [by split|].
      split; [done|]. inversion Hss; subst. constructor; [|done].
      rewrite not_elem_of_cons. auto.
Qed.

(** A match that begins inside [join ss] ends with the segment it began in. *)
Lemma cut_segments ss x1 x2 post m rest :
  Forall (fun sg => rb ∉ sg) ss ->
  join ss = x1 ++ x2 -> x2 <> [] ->
  x2 ++ post = m ++ rb :: rest -> rb ∉ m ->
  exists sg x, sg ∈ ss /\ sg = x ++ m.
Proof.
  intros Hss. revert x1. induction Hss as [|sg ss Hsg _ IH]; intros x1 E Hx2 Em Hm.
  - simpl in E. symmetry in E. apply app_eq_nil in E as [_ ->]. done.
  - simpl in E. rewrite <- (assoc_L (++)) in E. symmetry in E.
    apply cut_app in E as [(a2 & -> & ->)|(b1 & Hb1 & -> & E)].
    + rewrite <- !(assoc_L (++)) in Em. simpl in Em.
      apply split_first_unique in Em as [<- _];
        [|by rewrite elem_of_app in Hsg; tauto|done].
      exists (x1 ++ a2), x1. split; [left|done].
    + destruct b1 as [|r b1]; [done|]. simpl in E. inversion E; subst r.
      destruct (IH b1) as (sg' & x & Hsg' & ->); [done..|].
      exists (x ++ m), x. split; [by right|done].
Qed.

Lemma ends_with (c : char) (x a b : text) :
  x ++ [c] = a ++ b -> b <> [] -> exists b', b = b' ++ [c] /\ x = a ++ b'.
Proof.
  intros E Hb. destruct b as [|d b] using rev_ind; [done|]. clear IHb.
  rewrite (assoc_L (++)) in E. apply app_inj_tail in E as [-> ->]. eauto.
Qed.

(** A text without ['}'] that ends before a ['}'] began after the one
    before. *)
Lemma suffix_after_rb (a mx u w : text) :
  a ++ mx = u ++ rb :: w -> rb ∉ mx ->
  exists a2, w = a2 ++ mx /\ a = u ++ rb :: a2.
Proof.
  intros E Hmx. change (u ++ rb :: w) with (u ++ [rb] ++ w) in E.
  rewrite (assoc_L (++)) in E.
  apply cut_app in E as [(a2 & E1 & ->)|(b1 & _ & -> & ->)].
  - destruct (decide (a2 = [])) as [->|Hne].
    + exists []. rewrite app_nil_r in E1. by split.
    + apply ends_with in E1 as (b' & -> & _); [|done].
      exfalso. apply Hmx. rewrite !elem_of_app. left. right. left.
  - exists b1. split; [done|]. by rewrite <- (assoc_L (++)).
Qed.

(** A ['}'] of [u ++ v] is in [u] when [v] has none. *)
Lemma rb_in_prefix (c : char) (u v a b : text) :
  u ++ v = a ++ c :: b -> c ∉ v -> exists b', u = a ++ c :: b' /\ b = b' ++ v.
Proof.
  intros E Hv. symmetry in E.
  apply cut_app in E as [(a2 & -> & E)|(b1 & _ & -> & ->)].
  - destruct a2 as [|d a2]; simpl in E.
    + exfalso. apply Hv. rewrite <- E. left.
    + inversion E; subst. eauto.
  - exfalso. apply Hv. rewrite elem_of_app. right. left.
Qed.

(** An occurrence [mx }] in a text cut after a ['}'] lies on one side. *)
Lemma occ_split (x y a mx b : text) :
  (x ++ [rb]) ++ y = a ++ mx ++ rb :: b -> rb ∉ mx ->
  (exists b1, x ++ [rb] = a ++ mx ++ rb :: b1) \/
  (exists a2, y = a2 ++ mx ++ rb :: b).
Proof.
  intros E Hmx. symmetry in E.
  change (a ++ mx ++ rb :: b) with (a ++ mx ++ [rb] ++ b) in E.
  rewrite !(assoc_L (++)) in E.
  apply cut_app in E as [(a2 & E & ->)|(b1 & Hb1 & E & ->)].
  - left. exists a2. rewrite E. by rewrite <- !(assoc_L (++)).
  - right. apply ends_with in E as (b' & -> & E); [|done].
    rewrite <- (assoc_L (++)) in E.
    apply suffix_after_rb in E as (a2 & -> & _); [|done].
    exists a2. by rewrite <- !(assoc_L (++)).
Qed.

Lemma join_occ_app ss y a mx b :
  Forall (fun sg => rb ∉ sg) ss ->
  join ss ++ y = a ++ mx ++ rb :: b -> rb ∉ mx ->
  (exists sg x, sg ∈ ss /\ sg = x ++ mx) \/
  (exists a2, y = a2 ++ mx ++ rb :: b).
Proof.
  intros Hss. revert a. induction Hss as [|sg ss Hsg _ IH]; intros a E Hmx.
  - right. by exists a.
  - change (join (sg :: ss)) with ((sg ++ [rb]) ++ join ss) in E.
    rewrite <- (assoc_L (++) (sg ++ [rb])) in E.
    destruct (occ_split _ _ _ _ _ E Hmx) as [[b1 E1]|[a2 E1]]; clear E;
      rename E1 into E.
    + left. destruct (decide (b1 = [])) as [->|Hne].
      * rewrite (assoc_L (++)) in E. apply app_inj_tail in E as [-> _].
        exists (a ++ mx), a. split; [left|done].
      * change (a ++ mx ++ rb :: b1) with (a ++ mx ++ [rb] ++ b1) in E.
        rewrite !(assoc_L (++)) in E.
        apply ends_with in E as (b' & _ & ->); [|done].
        exfalso. apply Hsg. rewrite !elem_of_app. left. right. left.
    + destruct (IH a2 E Hmx) as [(sg' & x & Hin & ->)|[a3 ->]].
      * left. exists (x ++ mx), x. split; [by right|done].
      * right. by exists a3.
Qed.

Lemma before_after (c : char) l :
  c ∈ l -> l = before c l ++ c :: after c l /\ c ∉ before c l.
Proof.
  induction l as [|d l IH]; [by intros ?%elem_of_nil|].
  intros H. simpl. destruct (N.eqb_spec d c) as [->|Hd].
  - split; [done|]. by intros ?%elem_of_nil.
  - apply elem_of_cons in H as [->|H]; [done|].
    destruct (IH H) as [E Hb]. split; [simpl; by rewrite <- E|].
    rewrite not_elem_of_cons. auto.
Qed.

Lemma seg_ok_free sg : seg_ok sg = true -> seg_free sg.
Proof.
  unfold seg_ok. intros H sg0 sg1 -> Hsg1.
  destruct (after_last lb (sg0 ++ lb :: sg1)) as [t|] eqn:E.
  - apply after_last_Some in E as (l0 & E & Ht).
    apply split_last_unique in E as [_ ->]; [|done..].
    rewrite forallb_forall in H. intros Hv%list_elem_of_In%H.
    by rewrite N.eqb_refl in Hv.
  - apply after_last_None in E. exfalso. apply E.
    rewrite elem_of_app. right. left.
Qed.

Lemma seg_free_app x A : lb ∈ A -> seg_free A -> seg_free (x ++ A).
Proof.
  intros (A0 & A1 & -> & HA1)%list_elem_of_split_r HA sg0 sg1 E Hsg1.
  rewrite (assoc_L (++)) in E.
  apply split_last_unique in E as [_ ->]; [|done..].
  by apply (HA A0 sg1).
Qed.

Lemma accessors_split acc :
  accessors_inert acc = true ->
  acc ++ [rb] = join (first_segment acc :: other_segments acc) /\
  Forall (fun sg => rb ∉ sg) (first_segment acc :: other_segments acc) /\
  lb ∈ first_segment acc /\
  Forall seg_free (first_segment acc :: other_segments acc).
Proof.
  unfold accessors_inert, first_segment, other_segments. intros Hacc.
  destruct (split_rb (acc ++ [rb])) as [[|A ss] [|c tr]] eqn:E; try done.
  apply split_rb_join in E as [E Hrb]. rewrite app_nil_r in E.
  apply andb_true_iff in Hacc as [HA Hok].
  apply bool_decide_eq_true in HA. simpl.
  repeat split; try done.
  rewrite forallb_forall in Hok. apply Forall_forall.
  intros sg Hsg. apply seg_ok_free, Hok. by apply list_elem_of_In.
Qed.

(** ** Blocks of fields: operations 1 and 2

    Both patterns match a fixed header that ends in ['{'], then fields and
    whitespace, then ['}'], and put accessors before that brace. *)

Section FieldBlock.
Variables (prog : list op) (tmpl : list titem).
Variable is_body : text -> Prop.
Variables (H0 accessors : text).

Hypothesis match_inv : forall adv s e mk,
  match_at prog adv s = Some (e, mk) ->
  exists m rest, is_body m /\ s = m ++ rb :: rest /\ e = S (length m)
                 /\ expand tmpl s mk = with_accessors accessors m.
Hypothesis match_fwd : forall m rest,
  is_body m ->
  exists mk, match_at prog false (m ++ rb :: rest) = Some (S (length m), mk).
Hypothesis body_no_rb : forall m, is_body m -> rb ∉ m.
Hypothesis H0_no_lb : lb ∉ H0.
Hypothesis body_shape : forall m,
  is_body m ->
  exists tail, m = H0 ++ lb :: tail /\ (lb ∉ tail) /\ (chr "v" ∈ tail).
Hypothesis accessors_ok : accessors_inert accessors = true.

Lemma body_one_lb m : is_body m -> occurrences lb m = 1.
Proof.
  intros (tail & -> & Ht & _)%body_shape.
  rewrite occurrences_app.
  rewrite (proj1 (occurrences_none lb H0) H0_no_lb).
  change (lb :: tail) with ([lb] ++ tail).
  rewrite occurrences_app, (proj1 (occurrences_none lb tail) Ht). done.
Qed.

Lemma body_no_overlap j m : is_body m -> is_body (j ++ m) -> j = [].
Proof.
  intros (t & -> & Ht & _)%body_shape (t' & E & Ht' & _)%body_shape.
  rewrite (assoc_L (++)) in E.
  apply split_last_unique in E as [E _]; [|done..].
  apply (f_equal length) in E. rewrite length_app in E.
  destruct j; [done|]. simpl in E. lia.
Qed.

Lemma seg_free_no_body sg x m : seg_free sg -> is_body m -> sg <> x ++ m.
Proof.
  intros Hsg (t & -> & Ht & Hv)%body_shape ->.
  rewrite (assoc_L (++)) in Hsg. by apply (Hsg _ _ eq_refl).
Qed.

(** The patched block is inert: the rule does not match its own output. *)
Lemma with_accessors_inert m :
  is_body m -> inert prog is_body (with_accessors accessors m).
Proof.
  intros Hm.
  destruct (accessors_split accessors accessors_ok)
    as (Eacc & Hrb & HlbA & Hfree).
  remember (first_segment accessors) as A eqn:EA.
  remember (other_segments accessors) as ss eqn:Ess. clear EA Ess.
  inversion Hrb as [|? ? HrbA Hrbss]; subst.
  inversion Hfree as [|? ? HfA Hfss]; subst.
  assert (EX : with_accessors accessors m = join ((m ++ A) :: ss)).
  { unfold with_accessors. rewrite Eacc. simpl.
    by rewrite <- !(assoc_L (++)). }
  assert (HrbmA : rb ∉ m ++ A).
  { rewrite elem_of_app. intros [?|?]; [by apply (body_no_rb m)|done]. }
  split.
  - intros p post m' rest E Hm'. rewrite EX in E. simpl in E.
    rewrite <- !(assoc_L (++)) in E. simpl in E.
    destruct (decide (rb ∈ p)) as [Hin|Hin].
    + apply list_elem_of_split_l in Hin as (a & b & -> & Ha).
      rewrite <- (assoc_L (++)) in E. simpl in E.
      apply split_first_unique in E as [<- _]; [|done|by apply body_no_rb].
      rewrite length_app. simpl. lia.
    + rewrite !(assoc_L (++)) in E.
      apply split_first_unique in E as [E _]; [| |by apply body_no_rb].
      2:{ rewrite <- (assoc_L (++)), elem_of_app. tauto. }
      exfalso. apply (f_equal (occurrences lb)) in E.
      rewrite !occurrences_app, (body_one_lb m Hm), (body_one_lb m' Hm') in E.
      assert (occurrences lb A <> 0); [|lia].
      by intros ?%occurrences_none.
  - intros x1 x2 post E Hx2.
    destruct (match_at prog false (x2 ++ post)) as [[e mk]|] eqn:M; [|done].
    exfalso. apply match_inv in M as (m' & rest & Hm' & M & _).
    rewrite EX in E.
    assert (Hall : Forall (fun sg => rb ∉ sg) ((m ++ A) :: ss))
      by (by constructor).
    destruct (cut_segments _ _ _ _ _ _ Hall E Hx2 M (body_no_rb _ Hm'))
      as (sg & x & Hsg & ->).
    apply elem_of_cons in Hsg as [Hsg|Hsg].
    + symmetry in Hsg. revert Hsg.
      apply (seg_free_no_body (m ++ A) x m'); [by apply seg_free_app|done].
    + rewrite Forall_forall in Hfss.
      by apply (seg_free_no_body (x ++ m') x m' (Hfss _ Hsg) Hm').
Qed.

(** Every block gets its accessors, wherever it stands. *)
Theorem fb_local pre m post :
  is_body m ->
  scan prog tmpl (pre ++ m ++ rb :: post)
  = scan prog tmpl pre ++ with_accessors accessors m ++ scan prog tmpl post.
Proof.
  exact (scan_local prog tmpl is_body (with_accessors accessors)
           match_inv match_fwd body_no_rb body_no_overlap pre m post).
Qed.

Theorem fb_absent s : absent is_body s -> scan prog tmpl s = s.
Proof. exact (scan_absent prog tmpl is_body (with_accessors accessors) match_inv s). Qed.

(** A patched block is left as it is, wherever it stands. *)
Theorem fb_patched_stable pre m post :
  is_body m ->
  scan prog tmpl (pre ++ with_accessors accessors m ++ post)
  = scan prog tmpl pre ++ with_accessors accessors m ++ scan prog tmpl post.
Proof.
  intros Hm.
  apply (scan_inert prog tmpl is_body (with_accessors accessors)
           match_inv match_fwd body_no_rb).
  by apply with_accessors_inert.
Qed.

Theorem fb_idempotent s : scan prog tmpl (scan prog tmpl s) = scan prog tmpl s.
Proof.
  apply (scan_idempotent prog tmpl is_body (with_accessors accessors)
           match_inv match_fwd body_no_rb).
  apply with_accessors_inert.
Qed.
Lemma seg_free_not_ends sg : seg_free sg -> ~ ends_in is_body sg.
Proof. intros Hsg (x & m & Hm & E). by apply (seg_free_no_body sg x m). Qed.

Lemma accessors_nonempty : 0 < length accessors.
Proof.
  destruct (accessors_split accessors accessors_ok) as (E & _ & Hlb & _).
  apply (f_equal length) in E. simpl in E. rewrite !length_app in E.
  destruct (first_segment accessors); [by apply elem_of_nil in Hlb|].
  simpl in E. lia.
Qed.

(** In the output of the rule its pattern occurs nowhere. *)
Theorem fb_self_absent s : absent is_body (scan prog tmpl s).
Proof.
  apply (scan_fixed_absent prog tmpl is_body (with_accessors accessors)
           match_inv match_fwd body_no_rb); [|apply fb_idempotent].
  intros m _. unfold with_accessors. rewrite !length_app. simpl.
  pose proof accessors_nonempty. lia.
Qed.
End FieldBlock.

(** ** A pattern absent before a rule is absent after it

    [LY] is the rule applied, with its accessors; [LX] is the pattern
    looked for in its output. *)

Section Cross.
Variables (prog : list op) (tmpl : list titem).
Variables (LY LX : text -> Prop) (acc : text).

Hypothesis match_inv : forall adv s e mk,
  match_at prog adv s = Some (e, mk) ->
  exists m rest, LY m /\ s = m ++ rb :: rest /\ e = S (length m)
                 /\ expand tmpl s mk = with_accessors acc m.
Hypothesis match_fwd : forall m rest,
  LY m ->
  exists mk, match_at prog false (m ++ rb :: rest) = Some (S (length m), mk).
Hypothesis LY_rb : forall m, LY m -> rb ∉ m.
Hypothesis LX_rb : forall m, LX m -> rb ∉ m.
Hypothesis acc_ok : accessors_inert acc = true.
Hypothesis first_kept : forall w,
  ends_in LX (w ++ first_segment acc) -> ends_in LX w.
Hypothesis others_dead : forall sg,
  sg ∈ other_segments acc -> ~ ends_in LX sg.

Theorem absent_kept s : absent LX s -> absent LX (scan prog tmpl s).
Proof.
  destruct (accessors_split acc acc_ok) as (Eacc & Hrb & _ & _).
  inversion Hrb as [|? ? HrbA Hrbss]; subst.
  remember (length s) as n eqn:Hn. revert s Hn.
  induction n as [n IH] using lt_wf_ind. intros s -> Ha.
  destruct (scan_leftmost prog tmpl LY (with_accessors acc)
              match_inv match_fwd LY_rb s)
    as [[_ ->]|(pre & m & post & -> & Hm & _ & _ & ->)]; [done|].
  assert (Hpost : absent LX (scan prog tmpl post)).
  { apply (IH (length post)); [rewrite !length_app; simpl; lia|done|].
    intros a mx b Hmx ->.
    apply (Ha (pre ++ m ++ rb :: a) mx b Hmx).
    by rewrite <- !(assoc_L (++)). }
  intros a mx b Hmx E.
  assert (E' : ((pre ++ m ++ first_segment acc) ++ [rb])
               ++ join (other_segments acc) ++ scan prog tmpl post
               = a ++ mx ++ rb :: b).
  { rewrite <- E. unfold with_accessors. rewrite Eacc. simpl.
    by rewrite <- !(assoc_L (++)). }
  clear E.
  destruct (occ_split _ _ _ _ _ E' (LX_rb _ Hmx)) as [[b1 E]|[a2 E]]; clear E'.
  - destruct (decide (b1 = [])) as [->|Hne].
    + rewrite (assoc_L (++) a) in E. apply app_inj_tail in E as [E _].
      destruct (first_kept (pre ++ m)) as (x & mx' & Hmx' & E2).
      { exists a, mx. split; [done|]. by rewrite <- E, <- !(assoc_L (++)). }
      apply (Ha x mx' post Hmx').
      by rewrite (assoc_L (++) pre), E2, <- !(assoc_L (++)).
    + change (a ++ mx ++ rb :: b1) with (a ++ mx ++ [rb] ++ b1) in E.
      rewrite (assoc_L (++) mx), (assoc_L (++) a) in E.
      apply ends_with in E as (b' & _ & E); [|done].
      assert (E2 : pre ++ (m ++ first_segment acc) = (a ++ mx) ++ rb :: b')
        by (by rewrite E, <- !(assoc_L (++))).
      apply rb_in_prefix in E2 as (b'' & E2 & _).
      2:{ rewrite elem_of_app. intros [?|?]; [by apply (LY_rb m)|done]. }
      apply (Ha a mx (b'' ++ m ++ rb :: post) Hmx).
      rewrite E2. by rewrite <- !(assoc_L (++)).
  - destruct (join_occ_app _ _ _ _ _ Hrbss E (LX_rb _ Hmx))
      as [(sg & x & Hsg & ->)|[a3 E3]].
    + apply (others_dead _ Hsg). by exists x, mx.
    + by apply (Hpost a3 mx b Hmx).
Qed.
End Cross.

(** ** Text without any occurrence, decided by the matcher *)

Lemma no_match_from_absent prog (L : text -> Prop) s :
  (forall m rest, L m ->
     exists mk, match_at prog false (m ++ rb :: rest) = Some (S (length m), mk)) ->
  no_match_from prog s = true -> absent L s.
Proof.
  intros Hfwd H pre m post Hm ->.
  induction pre as [|c pre IH]; simpl in H.
  - destruct (Hfwd m post Hm) as [mk E].
    destruct m; simpl in *; rewrite E in H; done.
  - destruct (match_at prog false _); [done|]. by apply IH.
Qed.

Lemma sre_match_mark i k adv s pos mk :
  sre_match (Mark i :: k) adv s pos mk = sre_match k adv s pos ((i, pos) :: mk).
Proof. done. Qed.

Lemma sre_match_close adv s pos mk :
  sre_match [Mark 1; One (SetLit rb)] adv s (S pos) mk
  = match s with
    | c :: _ => if (c =? rb)%N then Some (S (S pos), (1, S pos) :: mk) else None
    | [] => None
    end.
Proof.
  simpl. destruct s as [|c s]; [done|].
  destruct (c =? rb)%N; [|done]. by rewrite andb_false_r.
Qed.

Lemma expand_group1 l s mk :
  expand (TGroup 1 :: map TLit l) s mk = group_text s mk 1 ++ l.
Proof.
  unfold expand. simpl. f_equal.
  induction l as [|c l IH]; simpl; [done|]. by rewrite IH.
Qed.

Lemma group_text_1 s n : group_text s [(1, n); (0, 0)] 1 = take n s.
Proof.
  unfold group_text.
  change (mark_get [(1, n); (0, 0)] (2 * Nat.pred 1)) with (Some 0).
  change (mark_get [(1, n); (0, 0)] (2 * Nat.pred 1 + 1)) with (Some n).
  cbv beta iota. by rewrite Nat.sub_0_r, drop_0.
Qed.

Lemma expand_lits l s mk : expand (map TLit l) s mk = l.
Proof.
  unfold expand. induction l as [|c l IH]; simpl; [done|]. by rewrite IH.
Qed.

Lemma whitespace_not (c : char) ws :
  Py_UNICODE_ISSPACE c = false -> whitespace ws -> c ∉ ws.
Proof.
  intros Hc Hws Hin. unfold whitespace in Hws. rewrite Forall_forall in Hws.
  apply Hws in Hin. congruence.
Qed.

(** ** Operation 1: ExitVehicleRequest *)

Section EVR_facts.
Import EVR.

Lemma evr_compile_pattern : compile ExitVehicleRequest_pattern true = Some (prog, 1).
Proof. vm_compute. reflexivity. Qed.

Lemma evr_parse_repl : parse_template 1 (str ExitVehicleRequest_repl) = Some tmpl.
Proof. vm_compute. reflexivity. Qed.

Lemma evr_sub_eq content :
  sub_ExitVehicleRequest content = Some (scan prog tmpl content).
Proof.
  unfold sub_ExitVehicleRequest, re_sub. rewrite evr_compile_pattern.
  cbv beta iota delta [mbind option_bind]. by rewrite evr_parse_repl.
Qed.

Lemma evr_is_space_p : Py_UNICODE_ISSPACE (chr "p") = false.
Proof. reflexivity. Qed.

Lemma evr_match_inv adv s e mk :
  match_at prog adv s = Some (e, mk) ->
  exists m rest, is_body m /\ s = m ++ rb :: rest /\ e = S (length m)
                 /\ expand tmpl s mk = patched m.
Proof.
  unfold match_at, prog. rewrite sre_match_mark. intros H.
  apply sre_match_lits_inv in H as (s1 & -> & H).
  apply (sre_match_star_inv _ _ (chr "p")) in H as (ws1 & s2 & -> & Hws1 & H);
    [|reflexivity..].
  apply sre_match_lits_inv in H as (s3 & -> & H).
  apply (sre_match_star_inv _ _ rb) in H as (ws2 & s4 & -> & Hws2 & H);
    [|reflexivity..].
  assert (exists n, 0 + length header + length ws1 + length field + length ws2
                    = S n /\ S n = length (body ws1 ws2)) as (n & Hpos & Hlen).
  { exists (pred (length (body ws1 ws2))).
    unfold body. rewrite !length_app. unfold header. simpl. lia. }
  rewrite Hpos, sre_match_close in H.
  destruct s4 as [|c rest]; [done|].
  destruct (N.eqb_spec c rb) as [->|]; [|done].
  inversion H; subst e mk; clear H.
  exists (body ws1 ws2), rest. split; [by exists ws1, ws2|].
  split; [unfold body; by rewrite <- !(assoc_L (++))|].
  split; [by rewrite Hlen|].
  unfold tmpl. rewrite expand_group1. unfold patched. f_equal.
  rewrite group_text_1, Hlen.
  replace (header ++ ws1 ++ field ++ ws2 ++ rb :: rest)
    with (body ws1 ws2 ++ rb :: rest)
    by (unfold body; by rewrite <- !(assoc_L (++))).
  by rewrite take_app_length.
Qed.

Lemma evr_match_fwd m rest :
  is_body m ->
  exists mk, match_at prog false (m ++ rb :: rest) = Some (S (length m), mk).
Proof.
  intros (ws1 & ws2 & Hws1 & Hws2 & ->).
  unfold match_at, prog, body. rewrite sre_match_mark.
  rewrite <- !(assoc_L (++)), sre_match_lits.
  rewrite (sre_match_star_run _ _ (chr "p")); [|reflexivity..|done|reflexivity].
  rewrite sre_match_lits.
  rewrite (sre_match_star_run _ _ rb); [|reflexivity..|done|reflexivity].
  assert (exists n, 0 + length header + length ws1 + length field + length ws2
                    = S n /\ S n = length (header ++ ws1 ++ field ++ ws2))
    as (n & Hpos & Hlen).
  { exists (pred (length (header ++ ws1 ++ field ++ ws2))).
    rewrite !length_app. unfold header. simpl. lia. }
  rewrite Hpos, sre_match_close, N.eqb_refl, Hlen. by eexists.
Qed.

Lemma evr_body_no_rb m : is_body m -> rb ∉ m.
Proof.
  intros (ws1 & ws2 & Hws1 & Hws2 & ->). unfold body.
  rewrite !elem_of_app. intros [H|[H|[H|H]]]; revert H.
  - apply occurrences_none. reflexivity.
  - by apply whitespace_not.
  - apply occurrences_none. reflexivity.
  - by apply whitespace_not.
Qed.

Lemma evr_header0_no_lb : lb ∉ header0.
Proof. apply occurrences_none. reflexivity. Qed.

Lemma evr_body_shape m :
  is_body m ->
  exists tail, m = header0 ++ lb :: tail /\ (lb ∉ tail) /\ (chr "v" ∈ tail).
Proof.
  intros (ws1 & ws2 & Hws1 & Hws2 & ->).
  exists (ws1 ++ field ++ ws2). split; [done|]. split.
  - rewrite !elem_of_app. intros [H|[H|H]]; revert H.
    + by apply whitespace_not.
    + apply occurrences_none. reflexivity.
    + by apply whitespace_not.
  - rewrite !elem_of_app. right. left.
    apply (bool_decide_unpack _). vm_compute. reflexivity.
Qed.

Lemma evr_accessors_ok :
  accessors_inert accessors = true.
Proof. vm_compute. reflexivity. Qed.

Lemma evr_absent_present s : ~ present s <-> absent is_body s.
Proof.
  split.
  - intros H pre m post (ws1 & ws2 & ? & ? & ->) ->. apply H.
    by exists pre, ws1, ws2, post.
  - intros H (pre & ws1 & ws2 & post & ? & ? & ->).
    apply (H pre (body ws1 ws2) post); [|done]. by exists ws1, ws2.
Qed.

Lemma evr_check_absent s : no_match_from prog s = true -> ~ present s.
Proof.
  intros H. apply evr_absent_present.
  by apply (no_match_from_absent prog is_body s evr_match_fwd).
Qed.

Lemma evr_local pre m post :
  is_body m ->
  scan prog tmpl (pre ++ m ++ rb :: post)
  = scan prog tmpl pre ++ patched m ++ scan prog tmpl post.
Proof.
  exact (fb_local prog tmpl is_body header0 accessors
           evr_match_inv evr_match_fwd evr_body_no_rb evr_body_shape pre m post).
Qed.

Lemma evr_unchanged s : ~ present s -> scan prog tmpl s = s.
Proof.
  intros H%evr_absent_present.
  exact (fb_absent prog tmpl is_body accessors evr_match_inv s H).
Qed.

Lemma evr_patched_stable pre m post :
  is_body m ->
  scan prog tmpl (pre ++ patched m ++ post)
  = scan prog tmpl pre ++ patched m ++ scan prog tmpl post.
Proof.
  exact (fb_patched_stable prog tmpl is_body header0 accessors
           evr_match_inv evr_match_fwd evr_body_no_rb evr_header0_no_lb evr_body_shape
           evr_accessors_ok pre m post).
Qed.

Lemma evr_idempotent s : scan prog tmpl (scan prog tmpl s) = scan prog tmpl s.
Proof.
  exact (fb_idempotent prog tmpl is_body header0 accessors
           evr_match_inv evr_match_fwd evr_body_no_rb evr_header0_no_lb evr_body_shape
           evr_accessors_ok s).
Qed.

End EVR_facts.

(** ** Operation 2: ReserveSpotRequest *)

Section RSR_facts.
Import RSR.

Lemma rsr_compile_pattern : compile ReserveSpotRequest_pattern true = Some (prog, 1).
Proof. vm_compute. reflexivity. Qed.

Lemma rsr_parse_repl : parse_template 1 (str ReserveSpotRequest_repl) = Some tmpl.
Proof. vm_compute. reflexivity. Qed.

Lemma rsr_sub_eq content :
  sub_ReserveSpotRequest content = Some (scan prog tmpl content).
Proof.
  unfold sub_ReserveSpotRequest, re_sub. rewrite rsr_compile_pattern.
  cbv beta iota delta [mbind option_bind]. by rewrite rsr_parse_repl.
Qed.

Lemma rsr_body_length ws1 ws2 ws3 :
  exists n, 0 + length header + length ws1 + length field1 + length ws2
            + length field2 + length ws3 = S n
            /\ S n = length (body ws1 ws2 ws3).
Proof.
  exists (pred (length (body ws1 ws2 ws3))).
  unfold body. rewrite !length_app. unfold header. simpl. lia.
Qed.

Lemma rsr_match_inv adv s e mk :
  match_at prog adv s = Some (e, mk) ->
  exists m rest, is_body m /\ s = m ++ rb :: rest /\ e = S (length m)
                 /\ expand tmpl s mk = patched m.
Proof.
  unfold match_at, prog. rewrite sre_match_mark. intros H.
  apply sre_match_lits_inv in H as (s1 & -> & H).
  apply (sre_match_star_inv _ _ (chr "p")) in H as (ws1 & s2 & -> & Hws1 & H);
    [|reflexivity..].
  apply sre_match_lits_inv in H as (s3 & -> & H).
  apply (sre_match_star_inv _ _ (chr "p")) in H as (ws2 & s4 & -> & Hws2 & H);
    [|reflexivity..].
  apply sre_match_lits_inv in H as (s5 & -> & H).
  apply (sre_match_star_inv _ _ rb) in H as (ws3 & s6 & -> & Hws3 & H);
    [|reflexivity..].
  destruct (rsr_body_length ws1 ws2 ws3) as (n & Hpos & Hlen).
  rewrite Hpos, sre_match_close in H.
  destruct s6 as [|c rest]; [done|].
  destruct (N.eqb_spec c rb) as [->|]; [|done].
  inversion H; subst e mk; clear H.
  assert (E : header ++ ws1 ++ field1 ++ ws2 ++ field2 ++ ws3 ++ rb :: rest
              = body ws1 ws2 ws3 ++ rb :: rest)
    by (unfold body; by rewrite <- !(assoc_L (++))).
  exists (body ws1 ws2 ws3), rest. split; [by exists ws1, ws2, ws3|].
  split; [done|]. split; [by rewrite Hlen|].
  unfold tmpl. rewrite expand_group1. unfold patched. f_equal.
  by rewrite group_text_1, Hlen, E, take_app_length.
Qed.

Lemma rsr_match_fwd m rest :
  is_body m ->
  exists mk, match_at prog false (m ++ rb :: rest) = Some (S (length m), mk).
Proof.
  intros (ws1 & ws2 & ws3 & Hws1 & Hws2 & Hws3 & ->).
  destruct (rsr_body_length ws1 ws2 ws3) as (n & Hpos & Hlen).
  unfold match_at, prog. rewrite sre_match_mark. unfold body at 1.
  rewrite <- !(assoc_L (++)), sre_match_lits.
  rewrite (sre_match_star_run _ _ (chr "p")); [|reflexivity..|done|reflexivity].
  rewrite sre_match_lits.
  rewrite (sre_match_star_run _ _ (chr "p")); [|reflexivity..|done|reflexivity].
  rewrite sre_match_lits.
  rewrite (sre_match_star_run _ _ rb); [|reflexivity..|done|reflexivity].
  rewrite Hpos, sre_match_close, N.eqb_refl, Hlen. by eexists.
Qed.

Lemma rsr_body_no_rb m : is_body m -> rb ∉ m.
Proof.
  intros (ws1 & ws2 & ws3 & Hws1 & Hws2 & Hws3 & ->). unfold body.
  rewrite !elem_of_app. intros [H|[H|[H|[H|[H|H]]]]]; revert H.
  - apply occurrences_none. reflexivity.
  - by apply whitespace_not.
  - apply occurrences_none. reflexivity.
  - by apply whitespace_not.
  - apply occurrences_none. reflexivity.
  - by apply whitespace_not.
Qed.

Lemma rsr_header0_no_lb : lb ∉ header0.
Proof. apply occurrences_none. reflexivity. Qed.

Lemma rsr_body_shape m :
  is_body m ->
  exists tail, m = header0 ++ lb :: tail /\ (lb ∉ tail) /\ (chr "v" ∈ tail).
Proof.
  intros (ws1 & ws2 & ws3 & Hws1 & Hws2 & Hws3 & ->).
  exists (ws1 ++ field1 ++ ws2 ++ field2 ++ ws3). split; [done|]. split.
  - rewrite !elem_of_app. intros [H|[H|[H|[H|H]]]]; revert H.
    + by apply whitespace_not.
    + apply occurrences_none. reflexivity.
    + by apply whitespace_not.
    + apply occurrences_none. reflexivity.
    + by apply whitespace_not.
  - rewrite !elem_of_app. right. left.
    apply (bool_decide_unpack _). vm_compute. reflexivity.
Qed.

Lemma rsr_accessors_ok :
  accessors_inert accessors = true.
Proof. vm_compute. reflexivity. Qed.

Lemma rsr_absent_present s : ~ present s <-> absent is_body s.
Proof.
  split.
  - intros H pre m post (ws1 & ws2 & ws3 & ? & ? & ? & ->) ->. apply H.
    by exists pre, ws1, ws2, ws3, post.
  - intros H (pre & ws1 & ws2 & ws3 & post & ? & ? & ? & ->).
    apply (H pre (body ws1 ws2 ws3) post); [|done]. by exists ws1, ws2, ws3.
Qed.

Lemma rsr_check_absent s : no_match_from prog s = true -> ~ present s.
Proof.
  intros H. apply rsr_absent_present.
  by apply (no_match_from_absent prog is_body s rsr_match_fwd).
Qed.

Lemma rsr_local pre m post :
  is_body m ->
  scan prog tmpl (pre ++ m ++ rb :: post)
  = scan prog tmpl pre ++ patched m ++ scan prog tmpl post.
Proof.
  exact (fb_local prog tmpl is_body header0 accessors
           rsr_match_inv rsr_match_fwd rsr_body_no_rb rsr_body_shape pre m post).
Qed.

Lemma rsr_unchanged s : ~ present s -> scan prog tmpl s = s.
Proof.
  intros H%rsr_absent_present.
  exact (fb_absent prog tmpl is_body accessors rsr_match_inv s H).
Qed.

Lemma rsr_patched_stable pre m post :
  is_body m ->
  scan prog tmpl (pre ++ patched m ++ post)
  = scan prog tmpl pre ++ patched m ++ scan prog tmpl post.
Proof.
  exact (fb_patched_stable prog tmpl is_body header0 accessors
           rsr_match_inv rsr_match_fwd rsr_body_no_rb rsr_header0_no_lb rsr_body_shape
           rsr_accessors_ok pre m post).
Qed.

Lemma rsr_idempotent s : scan prog tmpl (scan prog tmpl s) = scan prog tmpl s.
Proof.
  exact (fb_idempotent prog tmpl is_body header0 accessors
           rsr_match_inv rsr_match_fwd rsr_body_no_rb rsr_header0_no_lb rsr_body_shape
           rsr_accessors_ok s).
Qed.

End RSR_facts.

(** ** Operation 3: ParkingLotStatus *)

Section PLS_facts.
Import PLS.

Lemma pls_compile_pattern : compile ParkingLotStatus_pattern true = Some (prog, 0).
Proof. vm_compute. reflexivity. Qed.

Lemma pls_parse_repl : parse_template 0 (str ParkingLotStatus_repl) = Some tmpl.
Proof. vm_compute. reflexivity. Qed.

Lemma pls_sub_eq content :
  sub_ParkingLotStatus content = Some (scan prog tmpl content).
Proof.
  unfold sub_ParkingLotStatus, re_sub. rewrite pls_compile_pattern.
  cbv beta iota delta [mbind option_bind]. by rewrite pls_parse_repl.
Qed.

Lemma pls_not_rb_run ws : in_set (SetNotLit rb) ws <-> rb ∉ ws.
Proof.
  unfold in_set. rewrite Forall_forall. split.
  - intros H Hin. by apply H in Hin.
  - intros H c Hc. simpl. destruct (N.eqb_spec c rb) as [->|]; done.
Qed.

Lemma pls_sre_match_end adv s pos mk :
  sre_match [One (SetLit rb)] adv s pos mk
  = match s with
    | c :: _ => if (c =? rb)%N then Some (S pos, mk) else None
    | [] => None
    end.
Proof.
  simpl. destruct s as [|c s]; [done|].
  destruct (c =? rb)%N; [|done]. by rewrite andb_false_r.
Qed.

Lemma pls_match_inv adv s e mk :
  match_at prog adv s = Some (e, mk) ->
  exists m rest, is_body m /\ s = m ++ rb :: rest /\ e = S (length m)
                 /\ expand tmpl s mk = fixed.
Proof.
  unfold match_at, prog. intros H.
  apply sre_match_lits_inv in H as (s1 & -> & H).
  apply (sre_match_star_inv _ _ rb) in H as (ws & s2 & -> & Hws & H);
    [|reflexivity..].
  remember (0 + length header + length ws) as n eqn:Hn.
  rewrite pls_sre_match_end in H. destruct s2 as [|c rest]; [done|].
  destruct (N.eqb_spec c rb) as [->|]; [|done].
  injection H as <- <-.
  exists (header ++ ws), rest. split; [exists ws; by rewrite <- pls_not_rb_run|].
  split; [by rewrite <- (assoc_L (++))|].
  split; [rewrite length_app; lia|]. apply expand_lits.
Qed.

Lemma pls_match_fwd m rest :
  is_body m ->
  exists mk, match_at prog false (m ++ rb :: rest) = Some (S (length m), mk).
Proof.
  intros (ws & Hws & ->). unfold match_at, prog.
  rewrite <- (assoc_L (++)), sre_match_lits.
  rewrite (sre_match_star_run _ _ rb);
    [|reflexivity..|by apply pls_not_rb_run|reflexivity].
  rewrite pls_sre_match_end, N.eqb_refl. exists [].
  replace (0 + length header + length ws) with (length (header ++ ws));
    [done|rewrite length_app; lia].
Qed.

Lemma pls_body_no_rb m : is_body m -> rb ∉ m.
Proof.
  intros (ws & Hws & ->). rewrite elem_of_app. intros [H|H]; [|done].
  revert H. apply occurrences_none. reflexivity.
Qed.

Lemma pls_absent_present s : ~ present s <-> absent is_body s.
Proof.
  split.
  - intros H pre m post (ws & ? & ->) ->. apply H.
    exists pre, ws, post. by rewrite <- (assoc_L (++)).
  - intros H (pre & ws & post & ? & ->).
    apply (H pre (header ++ ws) post); [by exists ws|].
    by rewrite <- (assoc_L (++)).
Qed.

Lemma pls_check_absent s : no_match_from prog s = true -> ~ present s.
Proof.
  intros H. apply pls_absent_present.
  by apply (no_match_from_absent prog is_body s pls_match_fwd).
Qed.

Lemma pls_unchanged s : ~ present s -> scan prog tmpl s = s.
Proof.
  intros H%pls_absent_present.
  exact (scan_absent prog tmpl is_body (fun _ => fixed) pls_match_inv s H).
Qed.

Lemma pls_header_split : header = removelast header ++ [lb].
Proof. reflexivity. Qed.

(** The span from a header to the first ['}'] after it is always replaced,
    alone or as the end of a match that began at an earlier header. *)
Lemma pls_block pre inside post :
  rb ∉ inside ->
  exists pre1 junk,
    pre = pre1 ++ junk /\ (rb ∉ junk) /\
    (junk = [] \/ exists j, junk = header ++ j) /\
    scan prog tmpl (pre ++ header ++ inside ++ rb :: post)
    = scan prog tmpl pre1 ++ fixed ++ scan prog tmpl post.
Proof.
  intros Hin.
  assert (Hm : is_body (header ++ inside)) by by exists inside.
  destruct (scan_block prog tmpl is_body (fun _ => fixed)
              pls_match_inv pls_match_fwd pls_body_no_rb
              pre (header ++ inside) post Hm)
    as (pre1 & junk & -> & HL & E).
  exists pre1, junk. split; [done|].
  pose proof (pls_body_no_rb _ HL) as Hrb.
  split; [rewrite elem_of_app in Hrb; tauto|]. split.
  - destruct HL as (inside' & _ & E').
    rewrite pls_header_split in E'.
    apply (header_overlap (removelast header) lb junk inside inside');
      [|done]. apply occurrences_none. reflexivity.
  - rewrite <- E. by rewrite <- (assoc_L (++) header).
Qed.

Lemma pls_present_header s : present s -> has_header s.
Proof. intros (pre & inside & post & _ & ->). by exists pre, (inside ++ rb :: post). Qed.

Lemma pls_check_no_header s : count_sub header s = 0 -> ~ has_header s.
Proof.
  intros H (a & b & ->). pose proof (count_sub_occurs a header b). lia.
Qed.

(** With no header before it, the span is the match. *)
Lemma pls_leftmost pre inside post :
  ~ has_header pre -> rb ∉ inside ->
  scan prog tmpl (pre ++ header ++ inside ++ rb :: post)
  = pre ++ fixed ++ scan prog tmpl post.
Proof.
  intros Hpre Hin.
  destruct (pls_block pre inside post Hin) as (pre1 & junk & -> & _ & Hj & ->).
  destruct Hj as [->|[j ->]].
  - rewrite app_nil_r in *. rewrite pls_unchanged; [done|].
    intros H%pls_present_header. done.
  - exfalso. apply Hpre. by exists pre1, j.
Qed.

(** A header that no closing brace follows is no match. *)
Lemma pls_unclosed pre inside :
  ~ has_header pre -> rb ∉ inside -> ~ present (pre ++ header ++ inside).
Proof.
  intros Hpre Hin (pre' & inside' & post' & Hin' & E).
  assert (H0 : lb ∉ removelast header) by (apply occurrences_none; reflexivity).
  symmetry in E. apply cut_app in E as [(a2 & -> & E)|(b1 & Hb1 & -> & E)].
  - rewrite pls_header_split in E. symmetry in E.
    destruct (header_overlap _ _ _ _ _ H0 E) as [->|[j ->]].
    + rewrite app_nil_l in E. apply app_inv_head in E. apply Hin. rewrite E.
      rewrite elem_of_app. right. left.
    + apply Hpre. by exists pre', j.
  - rewrite pls_header_split in E. symmetry in E.
    destruct (header_overlap _ _ _ _ _ H0 E) as [->|[j ->]]; [done|].
    rewrite <- (assoc_L (++)) in E.
    apply app_inv_head in E. apply Hin. rewrite <- E, !elem_of_app.
    right. right. right. left.
Qed.

End PLS_facts.

(** ** The three rules together *)

Lemma transform_eq t :
  transform t
  = Some (scan PLS.prog PLS.tmpl
            (scan RSR.prog RSR.tmpl (scan EVR.prog EVR.tmpl t))).
Proof.
  unfold transform. rewrite evr_sub_eq. cbv beta iota delta [mbind option_bind].
  rewrite rsr_sub_eq. apply pls_sub_eq.
Qed.


Lemma field_rule_dead (LX : text -> Prop) (H0 acc : text) :
  (forall m, LX m ->
     exists tail, m = H0 ++ lb :: tail /\ (lb ∉ tail) /\ (chr "v" ∈ tail)) ->
  accessors_inert acc = true ->
  (forall w, ends_in LX (w ++ first_segment acc) -> ends_in LX w) /\
  (forall sg, sg ∈ other_segments acc -> ~ ends_in LX sg).
Proof.
  intros Hshape Hacc.
  destruct (accessors_split acc Hacc) as (_ & _ & Hlb & Hfree).
  inversion Hfree as [|? ? HfA Hfss]; subst. split.
  - intros w H. exfalso. revert H.
    apply (seg_free_not_ends LX H0 Hshape). by apply seg_free_app.
  - intros sg Hsg. apply (seg_free_not_ends LX H0 Hshape).
    rewrite Forall_forall in Hfss. by apply Hfss.
Qed.

Lemma evr_self_absent s : absent EVR.is_body (scan EVR.prog EVR.tmpl s).
Proof.
  exact (fb_self_absent EVR.prog EVR.tmpl EVR.is_body EVR.header0
           EVR.accessors evr_match_inv evr_match_fwd evr_body_no_rb
           evr_header0_no_lb evr_body_shape evr_accessors_ok s).
Qed.

Lemma rsr_self_absent s : absent RSR.is_body (scan RSR.prog RSR.tmpl s).
Proof.
  exact (fb_self_absent RSR.prog RSR.tmpl RSR.is_body RSR.header0
           RSR.accessors rsr_match_inv rsr_match_fwd rsr_body_no_rb
           rsr_header0_no_lb rsr_body_shape rsr_accessors_ok s).
Qed.

(** Rule 2 brings no ExitVehicleRequest block into the text. *)
Lemma evr_absent_after_rsr s :
  absent EVR.is_body s -> absent EVR.is_body (scan RSR.prog RSR.tmpl s).
Proof.
  destruct (field_rule_dead EVR.is_body EVR.header0 RSR.accessors
              evr_body_shape rsr_accessors_ok) as [H1 H2].
  exact (absent_kept RSR.prog RSR.tmpl RSR.is_body EVR.is_body RSR.accessors
           rsr_match_inv rsr_match_fwd rsr_body_no_rb evr_body_no_rb
           rsr_accessors_ok H1 H2 s).
Qed.

(** Accessors put after a segment bring no ParkingLotStatus header to it. *)
Lemma pls_first_kept (A w : text) :
  lb ∈ A -> lb ∉ after lb A ->
  length (removelast PLS.header) <= length (before lb A) ->
  starts_with (reverse (removelast PLS.header)) (reverse (before lb A)) = false ->
  ends_in PLS.is_body (w ++ A) -> ends_in PLS.is_body w.
Proof.
  intros HA Hafter Hlen Hsuf (x & m & (inside & Hin & ->) & E).
  destruct (before_after lb A HA) as [EA Hbefore].
  remember (before lb A) as A10 eqn:E10. remember (after lb A) as A11 eqn:E11.
  clear E10 E11. subst A.
  rewrite pls_header_split in E.
  remember (removelast PLS.header) as h3 eqn:Eh3.
  assert (E' : (x ++ h3) ++ lb :: inside = (w ++ A10) ++ lb :: A11).
  { rewrite <- !(assoc_L (++)) in E. simpl in E.
    by rewrite <- !(assoc_L (++)), E. }
  clear E. apply cut_app in E' as [(a2 & E1 & E2)|(b1 & Hb1 & E1 & E2)].
  - destruct a2 as [|d a2].
    + exfalso. rewrite app_nil_r in E1.
      apply cut_app in E1 as [(a2 & -> & ->)|(b1 & Hb1 & -> & ->)].
      * rewrite reverse_app, starts_with_app in Hsuf. done.
      * rewrite length_app in Hlen. destruct b1; [done|]. simpl in Hlen. lia.
    + simpl in E2. inversion E2; subst d.
      apply rb_in_prefix in E1 as (b' & -> & ->); [|done].
      exists x, (PLS.header ++ b'). split.
      * exists b'. split; [|done]. intros H. apply Hin.
        rewrite H1, !elem_of_app. tauto.
      * rewrite pls_header_split, <- Eh3. by rewrite <- !(assoc_L (++)).
  - destruct b1 as [|d b1]; [done|]. simpl in E2. inversion E2; subst.
    exfalso. apply Hafter. rewrite elem_of_app. right. left.
Qed.

Lemma pls_dead_segment sg :
  count_sub PLS.header sg = 0 -> ~ ends_in PLS.is_body sg.
Proof.
  intros H (x & m & (inside & _ & ->) & ->).
  pose proof (count_sub_occurs x PLS.header inside). lia.
Qed.

(** The two accessor rules bring no ParkingLotStatus span into the text. *)
Lemma pls_absent_after_evr s :
  absent PLS.is_body s -> absent PLS.is_body (scan EVR.prog EVR.tmpl s).
Proof.
  apply (absent_kept EVR.prog EVR.tmpl EVR.is_body PLS.is_body EVR.accessors
           evr_match_inv evr_match_fwd evr_body_no_rb pls_body_no_rb
           evr_accessors_ok).
  - intros w. apply pls_first_kept.
    + apply (bool_decide_unpack _). vm_compute. reflexivity.
    + apply occurrences_none. vm_compute. reflexivity.
    + apply Nat.leb_le. vm_compute. reflexivity.
    + vm_compute. reflexivity.
  - intros sg Hsg. apply pls_dead_segment. revert sg Hsg.
    apply Forall_forall. vm_compute. repeat constructor.
Qed.

Lemma pls_absent_after_rsr s :
  absent PLS.is_body s -> absent PLS.is_body (scan RSR.prog RSR.tmpl s).
Proof.
  apply (absent_kept RSR.prog RSR.tmpl RSR.is_body PLS.is_body RSR.accessors
           rsr_match_inv rsr_match_fwd rsr_body_no_rb pls_body_no_rb
           rsr_accessors_ok).
  - intros w. apply pls_first_kept.
    + apply (bool_decide_unpack _). vm_compute. reflexivity.
    + apply occurrences_none. vm_compute. reflexivity.
    + apply Nat.leb_le. vm_compute. reflexivity.
    + vm_compute. reflexivity.
  - intros sg Hsg. apply pls_dead_segment. revert sg Hsg.
    apply Forall_forall. vm_compute. repeat constructor.
Qed.

(** Without a ParkingLotStatus span in the text, the three rules leave
    their own output as it is. *)
Lemma transform_idempotent t u :
  ~ PLS.present t -> transform t = Some u -> transform u = Some u.
Proof.
  intros H3%pls_absent_present. rewrite !transform_eq. intros [= <-].
  set (u1 := scan EVR.prog EVR.tmpl t).
  set (u2 := scan RSR.prog RSR.tmpl u1).
  assert (A3 : absent PLS.is_body u2)
    by by apply pls_absent_after_rsr, pls_absent_after_evr.
  assert (A1 : absent EVR.is_body u2)
    by apply evr_absent_after_rsr, evr_self_absent.
  assert (A2 : absent RSR.is_body u2) by apply rsr_self_absent.
  assert (E3 : scan PLS.prog PLS.tmpl u2 = u2)
    by by apply pls_unchanged, pls_absent_present.
  rewrite E3.
  rewrite (evr_unchanged u2) by by apply evr_absent_present.
  rewrite (rsr_unchanged u2) by by apply rsr_absent_present.
  by rewrite E3.
Qed.

(** * The claims of the specification *)

(** ** Operation 1 *)

(** C1.  A text with an ExitVehicleRequest block (the header, whitespace,
    the field [ticketNumber], whitespace, the closing brace) comes out of
    operation 1 with the accessors put just before that brace: the inserted
    text holds two methods, one getter and one setter of [ticketNumber].
    When the pattern occurs nowhere else, everything else is unchanged; in
    general the text before and the text after the block are rewritten on
    their own.  A text without the pattern is returned as it is, and no
    [re.error] is raised. *)
Theorem ExitVehicleRequest_accessors_inserted :
  (forall pre ws1 ws2 post,
      whitespace ws1 -> whitespace ws2 ->
      ~ EVR.present pre -> ~ EVR.present post ->
      sub_ExitVehicleRequest (pre ++ EVR.body ws1 ws2 ++ rb :: post)
      = Some (pre ++ EVR.body ws1 ws2 ++ EVR.accessors ++ rb :: post))
  /\ (forall pre ws1 ws2 post,
         whitespace ws1 -> whitespace ws2 ->
         exists out_pre out_post,
           sub_ExitVehicleRequest pre = Some out_pre /\
           sub_ExitVehicleRequest post = Some out_post /\
           sub_ExitVehicleRequest (pre ++ EVR.body ws1 ws2 ++ rb :: post)
           = Some (out_pre ++ EVR.body ws1 ws2 ++ EVR.accessors
                     ++ rb :: out_post))
  /\ (forall s, ~ EVR.present s -> sub_ExitVehicleRequest s = Some s)
  /\ count_sub (str "public ") EVR.accessors = 2
  /\ count_sub (str "public String getTicketNumber()") EVR.accessors = 1
  /\ count_sub (str "public void setTicketNumber(String ticketNumber)")
       EVR.accessors = 1.
Proof.
  assert (G : forall pre ws1 ws2 post,
             whitespace ws1 -> whitespace ws2 ->
             sub_ExitVehicleRequest (pre ++ EVR.body ws1 ws2 ++ rb :: post)
             = Some (scan EVR.prog EVR.tmpl pre ++ EVR.body ws1 ws2
                       ++ EVR.accessors ++ rb :: scan EVR.prog EVR.tmpl post)).
  { intros pre ws1 ws2 post H1 H2. rewrite evr_sub_eq, evr_local.
    - unfold EVR.patched. by rewrite <- !(assoc_L (++)).
    - by exists ws1, ws2. }
  split; [|split; [|split]].
  - intros pre ws1 ws2 post H1 H2 Hpre Hpost.
    by rewrite G, !evr_unchanged.
  - intros pre ws1 ws2 post H1 H2.
    exists (scan EVR.prog EVR.tmpl pre), (scan EVR.prog EVR.tmpl post).
    rewrite !evr_sub_eq. split; [done|]. split; [done|].
    rewrite <- evr_sub_eq. by apply G.
  - intros s Hs. by rewrite evr_sub_eq, evr_unchanged.
  - by vm_compute.
Qed.

Lemma ExitVehicleRequest_accessors_inserted_witness :
  sub_ExitVehicleRequest (str "class C { public static class ExitVehicleRequest {
        private String ticketNumber;
    } }")
  = Some (str "class C { public static class ExitVehicleRequest {
        private String ticketNumber;
    
        public String getTicketNumber() { return ticketNumber; }
        public void setTicketNumber(String ticketNumber) { this.ticketNumber = ticketNumber; }
    } }").
Proof.
  apply (proj1 ExitVehicleRequest_accessors_inserted
           (str "class C { ") [10; 32; 32; 32; 32; 32; 32; 32; 32]%N
           [10; 32; 32; 32; 32]%N (str " }")).
  - repeat constructor.
  - repeat constructor.
  - apply evr_check_absent. vm_compute. reflexivity.
  - apply evr_check_absent. vm_compute. reflexivity.
Defined.

(** ** Operation 2 *)

(** C2.  A text with a ReserveSpotRequest block (the header, the fields
    [spotNumber] and [durationMinutes] in this order, whitespace between
    and around them, the closing brace) comes out of operation 2 with the
    block as it was, field declarations included, and before its closing
    brace four methods: the getters of the two fields, then their setters,
    each pair in the order of the declarations.  A text without the pattern
    is returned as it is, and no [re.error] is raised. *)
Theorem ReserveSpotRequest_accessors_inserted :
  (forall pre ws1 ws2 ws3 post,
      whitespace ws1 -> whitespace ws2 -> whitespace ws3 ->
      ~ RSR.present pre -> ~ RSR.present post ->
      sub_ReserveSpotRequest (pre ++ RSR.body ws1 ws2 ws3 ++ rb :: post)
      = Some (pre ++ RSR.body ws1 ws2 ws3 ++ RSR.accessors ++ rb :: post))
  /\ (forall pre ws1 ws2 ws3 post,
         whitespace ws1 -> whitespace ws2 -> whitespace ws3 ->
         exists out_pre out_post,
           sub_ReserveSpotRequest pre = Some out_pre /\
           sub_ReserveSpotRequest post = Some out_post /\
           sub_ReserveSpotRequest (pre ++ RSR.body ws1 ws2 ws3 ++ rb :: post)
           = Some (out_pre ++ RSR.body ws1 ws2 ws3 ++ RSR.accessors
                     ++ rb :: out_post))
  /\ (forall s, ~ RSR.present s -> sub_ReserveSpotRequest s = Some s)
  /\ count_sub (str "public ") RSR.accessors = 4
  /\ in_order [str "public String getSpotNumber()";
               str "public int getDurationMinutes()";
               str "public void setSpotNumber(String spotNumber)";
               str "public void setDurationMinutes(int durationMinutes)"]
       RSR.accessors = true.
Proof.
  assert (G : forall pre ws1 ws2 ws3 post,
             whitespace ws1 -> whitespace ws2 -> whitespace ws3 ->
             sub_ReserveSpotRequest (pre ++ RSR.body ws1 ws2 ws3 ++ rb :: post)
             = Some (scan RSR.prog RSR.tmpl pre ++ RSR.body ws1 ws2 ws3
                       ++ RSR.accessors ++ rb :: scan RSR.prog RSR.tmpl post)).
  { intros pre ws1 ws2 ws3 post H1 H2 H3. rewrite rsr_sub_eq, rsr_local.
    - unfold RSR.patched. by rewrite <- !(assoc_L (++)).
    - by exists ws1, ws2, ws3. }
  split; [|split; [|split]].
  - intros pre ws1 ws2 ws3 post H1 H2 H3 Hpre Hpost.
    by rewrite G, !rsr_unchanged.
  - intros pre ws1 ws2 ws3 post H1 H2 H3.
    exists (scan RSR.prog RSR.tmpl pre), (scan RSR.prog RSR.tmpl post).
    rewrite !rsr_sub_eq. split; [done|]. split; [done|].
    rewrite <- rsr_sub_eq. by apply G.
  - intros s Hs. by rewrite rsr_sub_eq, rsr_unchanged.
  - by vm_compute.
Qed.

Lemma ReserveSpotRequest_accessors_inserted_witness :
  sub_ReserveSpotRequest (str "public static class ReserveSpotRequest {
        private String spotNumber;
        private int durationMinutes;
    }")
  = Some (str "public static class ReserveSpotRequest {
        private String spotNumber;
        private int durationMinutes;
    
        public String getSpotNumber() { return spotNumber; }
        public int getDurationMinutes() { return durationMinutes; }
        public void setSpotNumber(String spotNumber) { this.spotNumber = spotNumber; }
        public void setDurationMinutes(int durationMinutes) { this.durationMinutes = durationMinutes; }
    }").
Proof.
  apply (proj1 ReserveSpotRequest_accessors_inserted
           [] [10; 32; 32; 32; 32; 32; 32; 32; 32]%N
           [10; 32; 32; 32; 32; 32; 32; 32; 32]%N
           [10; 32; 32; 32; 32]%N []).
  - repeat constructor.
  - repeat constructor.
  - repeat constructor.
  - apply rsr_check_absent. vm_compute. reflexivity.
  - apply rsr_check_absent. vm_compute. reflexivity.
Defined.

(** ** Operation 3 *)

(** C3.  The span from the ParkingLotStatus header to the first closing
    brace after it is replaced by the fixed class (three fields, the
    constructor, three getters), whatever stood between the header and that
    brace.  With no header before it the span is the match itself, and the
    output is the text before, the fixed class, and the rewritten rest.  In
    general the match may have begun at an earlier header with no brace of
    its own ([junk]); the output then has nothing of the text from that
    header to the brace. *)
Theorem ParkingLotStatus_span_replaced :
  (forall pre inside post,
      rb ∉ inside -> ~ PLS.has_header pre ->
      exists out_post,
        sub_ParkingLotStatus post = Some out_post /\
        sub_ParkingLotStatus (pre ++ PLS.header ++ inside ++ rb :: post)
        = Some (pre ++ PLS.fixed ++ out_post))
  /\ (forall pre inside post,
         rb ∉ inside ->
         exists pre1 junk out_pre out_post,
           pre = pre1 ++ junk /\ (rb ∉ junk) /\
           sub_ParkingLotStatus pre1 = Some out_pre /\
           sub_ParkingLotStatus post = Some out_post /\
           sub_ParkingLotStatus (pre ++ PLS.header ++ inside ++ rb :: post)
           = Some (out_pre ++ PLS.fixed ++ out_post))
  /\ count_sub (str "private ") PLS.fixed = 3
  /\ count_sub (str "public ParkingLotStatus(Map<ParkingSpotType, Long> availableSpots, double occupancyRate, int activeTickets)") PLS.fixed = 1
  /\ in_order [str "getAvailableSpots()"; str "getOccupancyRate()";
               str "getActiveTickets()"] PLS.fixed = true.
Proof.
  split; [|split].
  - intros pre inside post Hin Hpre.
    exists (scan PLS.prog PLS.tmpl post).
    rewrite !pls_sub_eq. split; [done|]. by rewrite pls_leftmost.
  - intros pre inside post Hin.
    destruct (pls_block pre inside post Hin) as (pre1 & junk & E & Hj & _ & Hs).
    exists pre1, junk, (scan PLS.prog PLS.tmpl pre1), (scan PLS.prog PLS.tmpl post).
    rewrite !pls_sub_eq. by rewrite Hs.
  - by vm_compute.
Qed.

Lemma ParkingLotStatus_span_replaced_witness :
  sub_ParkingLotStatus
    (str "// x
    public static class ParkingLotStatus { int anything; } // y")
  = Some (str "// x
    " ++ PLS.fixed ++ str " // y").
Proof.
  destruct (proj1 ParkingLotStatus_span_replaced
              (str "// x
    ") (str " int anything; ") (str " // y")) as (out & E1 & E2).
  - apply occurrences_none. reflexivity.
  - apply pls_check_no_header. vm_compute. reflexivity.
  - rewrite pls_sub_eq, pls_unchanged in E1.
    + injection E1 as <-. exact E2.
    + apply pls_check_absent. vm_compute. reflexivity.
Defined.

(** C4.  The match of operation 3 ends at the first closing brace after the
    header, whatever that brace closes: with [inside] free of ['}'] and no
    header before, the text up to that brace is replaced and the rest of the
    text, which may hold the true end of the class, is scanned on as usual;
    when the pattern does not occur in the rest, the rest survives as it is.
    With headers before it the span may be the end of a match that began at
    an earlier header without a brace of its own ([junk]); that match, too,
    ends at the same brace.  A header that no closing brace follows is not
    matched. *)
Theorem ParkingLotStatus_first_closing_brace :
  (forall pre inside post,
      rb ∉ inside -> ~ PLS.has_header pre -> ~ PLS.present post ->
      sub_ParkingLotStatus (pre ++ PLS.header ++ inside ++ rb :: post)
      = Some (pre ++ PLS.fixed ++ post))
  /\ (forall pre inside post,
         rb ∉ inside -> ~ PLS.has_header pre ->
         exists out_post,
           sub_ParkingLotStatus post = Some out_post /\
           sub_ParkingLotStatus (pre ++ PLS.header ++ inside ++ rb :: post)
           = Some (pre ++ PLS.fixed ++ out_post))
  /\ (forall pre inside post,
         rb ∉ inside ->
         exists pre1 junk out_pre out_post,
           pre = pre1 ++ junk /\ (rb ∉ junk) /\
           (junk = [] \/ exists j, junk = PLS.header ++ j) /\
           sub_ParkingLotStatus pre1 = Some out_pre /\
           sub_ParkingLotStatus post = Some out_post /\
           sub_ParkingLotStatus (pre ++ PLS.header ++ inside ++ rb :: post)
           = Some (out_pre ++ PLS.fixed ++ out_post))
  /\ (forall pre inside,
         rb ∉ inside -> ~ PLS.has_header pre ->
         sub_ParkingLotStatus (pre ++ PLS.header ++ inside)
         = Some (pre ++ PLS.header ++ inside)).
Proof.
  split; [|split; [|split]].
  - intros pre inside post Hin Hpre Hpost.
    by rewrite pls_sub_eq, pls_leftmost, (pls_unchanged post).
  - intros pre inside post Hin Hpre.
    exists (scan PLS.prog PLS.tmpl post).
    rewrite !pls_sub_eq. split; [done|]. by rewrite pls_leftmost.
  - intros pre inside post Hin.
    destruct (pls_block pre inside post Hin) as (pre1 & junk & E & Hj & Hh & Hs).
    exists pre1, junk, (scan PLS.prog PLS.tmpl pre1),
      (scan PLS.prog PLS.tmpl post).
    rewrite !pls_sub_eq. by rewrite Hs.
  - intros pre inside Hin Hpre.
    rewrite pls_sub_eq, pls_unchanged; [done|]. by apply pls_unclosed.
Qed.

(** A class with an inner block: the match stops at the brace of the inner
    block and the end of the class is left behind the new class. *)
Lemma ParkingLotStatus_first_closing_brace_witness :
  sub_ParkingLotStatus
    (str "public static class ParkingLotStatus { void f() { g(); } int x; }")
  = Some (PLS.fixed ++ str " int x; }").
Proof.
  apply (proj1 ParkingLotStatus_first_closing_brace
           [] (str " void f() { g(); ") (str " int x; }")).
  - apply occurrences_none. reflexivity.
  - apply pls_check_no_header. reflexivity.
  - apply pls_check_absent. vm_compute. reflexivity.
Defined.

(** ** All occurrences *)

(** C9.  [re.sub] is called without a count: in a text made of any number
    of blocks of a rule, with gaps between them in which no match begins,
    every block is replaced in the one run, for each of the three rules. *)
Theorem sub_replaces_every_occurrence :
  (forall bs tl,
      Forall (fun b => ~ EVR.present (fst b) /\ EVR.is_body (snd b)) bs ->
      ~ EVR.present tl ->
      sub_ExitVehicleRequest (blocks bs tl)
      = Some (replaced EVR.patched bs tl))
  /\ (forall bs tl,
         Forall (fun b => ~ RSR.present (fst b) /\ RSR.is_body (snd b)) bs ->
         ~ RSR.present tl ->
         sub_ReserveSpotRequest (blocks bs tl)
         = Some (replaced RSR.patched bs tl))
  /\ (forall bs tl,
         Forall (fun b => ~ PLS.has_header (fst b) /\ PLS.is_body (snd b)) bs ->
         ~ PLS.present tl ->
         sub_ParkingLotStatus (blocks bs tl)
         = Some (replaced (fun _ => PLS.fixed) bs tl)).
Proof.
  split; [|split]; intros bs tl Hbs Htl.
  - rewrite evr_sub_eq. f_equal.
    induction Hbs as [|[gap m] bs [Hgap Hm] _ IH]; simpl in *.
    + by apply evr_unchanged.
    + by rewrite evr_local, evr_unchanged, IH.
  - rewrite rsr_sub_eq. f_equal.
    induction Hbs as [|[gap m] bs [Hgap Hm] _ IH]; simpl in *.
    + by apply rsr_unchanged.
    + by rewrite rsr_local, rsr_unchanged, IH.
  - rewrite pls_sub_eq. f_equal.
    induction Hbs as [|[gap m] bs [Hgap Hm] _ IH]; simpl in *.
    + by apply pls_unchanged.
    + destruct Hm as (inside & Hin & ->).
      by rewrite <- (assoc_L (++)), pls_leftmost, IH.
Qed.

Lemma sub_replaces_every_occurrence_witness :
  sub_ExitVehicleRequest
    (str "a public static class ExitVehicleRequest { private String ticketNumber; } b public static class ExitVehicleRequest {private String ticketNumber;} c")
  = Some (str "a " ++ EVR.patched (EVR.body [32%N] [32%N])
          ++ str " b " ++ EVR.patched (EVR.body [] []) ++ str " c").
Proof.
  apply (proj1 sub_replaces_every_occurrence
           [(str "a ", EVR.body [32%N] [32%N]); (str " b ", EVR.body [] [])]
           (str " c")).
  - repeat constructor; simpl.
    + apply evr_check_absent. vm_compute. reflexivity.
    + exists [32%N], [32%N]. repeat constructor.
    + apply evr_check_absent. vm_compute. reflexivity.
    + exists [], []. repeat constructor.
  - apply evr_check_absent. vm_compute. reflexivity.
Defined.

(** ** The run of the script *)

Ltac run_script :=
  cbv [script with_open bind finally close emit ret raise lift_re print
       open_r read open_w write].

Lemma script_missing w :
  fs w !! controller_file = None -> script w = (Raise OSError, w).
Proof. intros H. run_script. by rewrite H. Qed.

Lemma script_unreadable w f :
  fs w !! controller_file = Some f -> f_readable f = false ->
  script w = (Raise OSError, w).
Proof. intros H Hr. run_script. by rewrite H, Hr. Qed.

Lemma script_undecodable w f :
  fs w !! controller_file = Some f -> f_readable f = true -> f_data f = None ->
  script w
  = (Raise UnicodeDecodeError,
     World (fs w) (stdout w)
           (log w ++ [EvOpen controller_file "r"; EvClose controller_file])).
Proof.
  intros H Hr Hd. run_script. rewrite H, Hr. cbn [fs stdout log].
  rewrite H, Hd. cbn [fs stdout log]. by rewrite <- (assoc_L (++)).
Qed.

Lemma script_unwritable w f t :
  fs w !! controller_file = Some f -> f_readable f = true ->
  f_data f = Some t -> f_writable f = false ->
  script w
  = (Raise OSError,
     World (fs w) (stdout w)
           (log w ++ [EvOpen controller_file "r"; EvRead controller_file;
                      EvClose controller_file])).
Proof.
  intros H Hr Hd Hw. run_script. rewrite H, Hr. cbn [fs stdout log].
  rewrite H, Hd. cbn [fs stdout log].
  rewrite evr_sub_eq, rsr_sub_eq, pls_sub_eq. cbn [fs stdout log].
  rewrite H, Hw. by rewrite <- !(assoc_L (++)).
Qed.

Lemma script_ok w f t :
  fs w !! controller_file = Some f -> f_readable f = true ->
  f_data f = Some t -> f_writable f = true ->
  exists t',
    transform t = Some t' /\
    script w
    = (Ok tt,
       World (<[controller_file := File true true (Some t')]> (fs w))
             (stdout w ++ [str confirmation])
             (log w ++ [EvOpen controller_file "r"; EvRead controller_file;
                        EvClose controller_file;
                        EvOpen controller_file "w";
                        EvWrite controller_file t';
                        EvClose controller_file])).
Proof.
  intros H Hr Hd Hw. eexists. split; [apply transform_eq|].
  run_script. rewrite H, Hr. cbn [fs stdout log].
  rewrite H, Hd. cbn [fs stdout log].
  rewrite evr_sub_eq, rsr_sub_eq, pls_sub_eq. cbn [fs stdout log].
  rewrite H, Hw. cbn [fs stdout log].
  rewrite lookup_insert_eq. cbn [fs stdout log f_readable f_writable f_data].
  rewrite insert_insert_eq, Hr. cbn [default]. rewrite app_nil_l.
  by rewrite <- !(assoc_L (++)).
Qed.

(** Every run is one of these five. *)
Lemma script_cases w :
  (fs w !! controller_file = None /\ script w = (Raise OSError, w))
  \/ (exists f, fs w !! controller_file = Some f /\ f_readable f = false /\
                script w = (Raise OSError, w))
  \/ (exists f, fs w !! controller_file = Some f /\ f_readable f = true /\
                f_data f = None /\
                script w
                = (Raise UnicodeDecodeError,
                   World (fs w) (stdout w)
                         (log w ++ [EvOpen controller_file "r";
                                    EvClose controller_file])))
  \/ (exists f t, fs w !! controller_file = Some f /\ f_readable f = true /\
                  f_data f = Some t /\ f_writable f = false /\
                  script w
                  = (Raise OSError,
                     World (fs w) (stdout w)
                           (log w ++ [EvOpen controller_file "r";
                                      EvRead controller_file;
                                      EvClose controller_file])))
  \/ (exists f t t', fs w !! controller_file = Some f /\ f_readable f = true /\
                     f_data f = Some t /\ f_writable f = true /\
                     transform t = Some t' /\
                     script w
                     = (Ok tt,
                        World (<[controller_file := File true true (Some t')]>
                                 (fs w))
                              (stdout w ++ [str confirmation])
                              (log w ++ [EvOpen controller_file "r";
                                         EvRead controller_file;
                                         EvClose controller_file;
                                         EvOpen controller_file "w";
                                         EvWrite controller_file t';
                                         EvClose controller_file]))).
Proof.
  destruct (fs w !! controller_file) as [f|] eqn:H.
  2:{ left. split; [done|]. by apply script_missing. }
  right. destruct (f_readable f) eqn:Hr.
  2:{ left. exists f. repeat split; try done. by eapply script_unreadable. }
  right. destruct (f_data f) as [t|] eqn:Hd.
  2:{ left. exists f. repeat split; try done. by eapply script_undecodable. }
  right. destruct (f_writable f) eqn:Hw.
  2:{ left. exists f, t. repeat split; try done. by eapply script_unwritable. }
  right. destruct (script_ok w f t H Hr Hd Hw) as (t' & Ht & E).
  exists f, t, t'. by repeat split.
Qed.

(** ** The bytes of the file *)







(** ** Newlines *)










(** The text that [read()] has returned can be encoded, whatever is put
    into it by the rules. *)
Lemma utf8_encode_app t1 t2 b1 b2 :
  utf8_encode t1 = Some b1 -> utf8_encode t2 = Some b2 ->
  utf8_encode (t1 ++ t2) = Some (b1 ++ b2).
Proof.
  revert b1. induction t1 as [|c t1 IH]; intros b1 H1 H2; simpl in *.
  { by injection H1 as <-. }
  destruct (utf8_encode_char c) as [bc|]; [|done]. simpl in *.
  destruct (utf8_encode t1) as [b1'|]; [|done]. simpl in *.
  injection H1 as <-. rewrite (IH b1' eq_refl H2). simpl.
  by rewrite <- (assoc_L (++)).
Qed.


(** ** Text that can be encoded *)






(** ** The run on the bytes of the file *)



(** ** A text without the patterns *)




(** C7.  When the path names no file, or a file that may not be read,
    [open] raises [OSError]; nothing catches it, so the run stops there:
    exit status 1, the world as it was, nothing printed. *)
Theorem unreadable_file_fails w :
  (fs w !! controller_file = None \/
   exists f, fs w !! controller_file = Some f /\ f_readable f = false) ->
  script w = (Raise OSError, w) /\
  run w = (1, w) /\
  stdout (snd (run w)) = stdout w.
Proof.
  intros H.
  assert (E : script w = (Raise OSError, w)).
  { destruct H as [H|(f & H & Hr)];
      [by apply script_missing|by eapply script_unreadable]. }
  unfold run. by rewrite E.
Qed.

Lemma unreadable_file_fails_witness :
  run (World ∅ [] []) = (1, World ∅ [] []).
Proof.
  apply (unreadable_file_fails (World ∅ [] [])).
  left. apply lookup_empty.
Defined.

(** C8.  A run that ends with exit status 0 has added one line to standard
    output, the confirmation, and nothing else (a run that fails adds
    nothing).  Whatever the outcome, every file other than the controller
    file is as it was, and every file operation of the run is on the
    controller file. *)
Theorem run_effects w n w' :
  run w = (n, w') ->
  (n = 0 -> stdout w' = stdout w ++ [str confirmation]) /\
  (n <> 0 -> stdout w' = stdout w) /\
  (forall p, p <> controller_file -> fs w' !! p = fs w !! p) /\
  exists evs, log w' = log w ++ evs /\
              Forall (fun e => event_path e = controller_file) evs.
Proof.
  unfold run. intros E.
  destruct (script_cases w)
    as [(_ & S)|[(f & _ & _ & S)|[(f & _ & _ & _ & S)|[(f & t & _ & _ & _ & _ & S)
       |(f & t & t' & _ & _ & _ & _ & _ & S)]]]];
    rewrite S in E; injection E as <- <-; cbn [fs stdout log exit_status].
  - repeat split; try done. exists []. by rewrite app_nil_r.
  - repeat split; try done. exists []. by rewrite app_nil_r.
  - repeat split; try done. eexists. split; [done|]. by repeat constructor.
  - repeat split; try done. eexists. split; [done|]. by repeat constructor.
  - repeat split; try done.
    + intros p Hp. by rewrite lookup_insert_ne.
    + eexists. split; [done|]. by repeat constructor.
Qed.

Lemma run_effects_witness :
  let w := World {[ controller_file
                    := File true true
                         (Some (str "public static class ParkingLotStatus {}")) ]}
                 [] [] in
  stdout (snd (run w)) = stdout w ++ [str confirmation].
Proof.
  intros w. apply (run_effects w 0 (snd (run w))); [|reflexivity].
  vm_compute. reflexivity.
Defined.



(** ** A second run *)

(** C5, as the specification states it, fails for rule 3.  The fixed class
    has closing braces of its own, so a second run matches from its header
    to the brace that ends the constructor and puts the whole class there
    again: what followed that brace, the three getters, then stands twice. *)
Lemma second_run_duplicates_getters :
  transform (str "public static class ParkingLotStatus {}") = Some PLS.fixed /\
  exists tail,
    after_first [rb] PLS.fixed = Some tail /\
    transform PLS.fixed = Some (PLS.fixed ++ tail) /\
    PLS.fixed ++ tail <> PLS.fixed /\
    count_sub (str "public int getActiveTickets()") PLS.fixed = 1 /\
    count_sub (str "public int getActiveTickets()") (PLS.fixed ++ tail) = 2.
Proof.
  split; [vm_compute; reflexivity|].
  eexists. split; [vm_compute; reflexivity|].
  split; [vm_compute; reflexivity|].
  split; [|split; vm_compute; reflexivity].
  intros E. apply (f_equal length) in E. vm_compute in E. discriminate.
Qed.

(** C5, amended.  Rules 1 and 2 do not match their own output.  When the
    ParkingLotStatus pattern does not occur in the text, a second run of the
    whole patcher on the output of the first changes nothing.  Each of the
    two rules, applied to its own result, changes nothing, and a patched
    block is left as it is by a second application wherever it stands: no
    getter or setter is put twice. *)
Theorem accessor_rules_idempotent :
  (forall t u, ~ PLS.present t -> transform t = Some u -> transform u = Some u)
  /\ (forall t u, sub_ExitVehicleRequest t = Some u ->
                  sub_ExitVehicleRequest u = Some u)
  /\ (forall t u, sub_ReserveSpotRequest t = Some u ->
                  sub_ReserveSpotRequest u = Some u)
  /\ (forall pre ws1 ws2 post,
         whitespace ws1 -> whitespace ws2 ->
         ~ EVR.present pre -> ~ EVR.present post ->
         sub_ExitVehicleRequest
           (pre ++ EVR.patched (EVR.body ws1 ws2) ++ post)
         = Some (pre ++ EVR.patched (EVR.body ws1 ws2) ++ post))
  /\ (forall pre ws1 ws2 ws3 post,
         whitespace ws1 -> whitespace ws2 -> whitespace ws3 ->
         ~ RSR.present pre -> ~ RSR.present post ->
         sub_ReserveSpotRequest
           (pre ++ RSR.patched (RSR.body ws1 ws2 ws3) ++ post)
         = Some (pre ++ RSR.patched (RSR.body ws1 ws2 ws3) ++ post)).
Proof.
  split; [|split; [|split; [|split]]].
  - apply transform_idempotent.
  - intros t u. rewrite !evr_sub_eq. intros [= <-]. by rewrite evr_idempotent.
  - intros t u. rewrite !rsr_sub_eq. intros [= <-]. by rewrite rsr_idempotent.
  - intros pre ws1 ws2 post H1 H2 Hpre Hpost.
    rewrite evr_sub_eq, evr_patched_stable, !evr_unchanged; [done..|].
    by exists ws1, ws2.
  - intros pre ws1 ws2 ws3 post H1 H2 H3 Hpre Hpost.
    rewrite rsr_sub_eq, rsr_patched_stable, !rsr_unchanged; [done..|].
    by exists ws1, ws2, ws3.
Qed.

Lemma accessor_rules_idempotent_witness :
  let t := str "class C {
    public static class ExitVehicleRequest {
        private String ticketNumber;
    }
    public static class ReserveSpotRequest {
        private String spotNumber;
        private int durationMinutes;
    }
}" in
  exists u, transform t = Some u /\ transform u = Some u.
Proof.
  intros t. eexists. split; [vm_compute; reflexivity|].
  apply (proj1 accessor_rules_idempotent t).
  - apply pls_check_absent. vm_compute. reflexivity.
  - vm_compute. reflexivity.
Defined.

(** * Further properties of the script *)

(** ** What a scan adds *)

Section ScanGrowth.
Variables (prog : list op) (tmpl : list titem).
Variable L : text -> Prop.
Variable R : text -> text.

Hypothesis match_inv : forall adv s e mk,
  match_at prog adv s = Some (e, mk) ->
  exists m rest, L m /\ s = m ++ rb :: rest /\ e = S (length m)
                 /\ expand tmpl s mk = R m.
Hypothesis match_fwd : forall m rest,
  L m -> exists mk, match_at prog false (m ++ rb :: rest) = Some (S (length m), mk).
Hypothesis L_rb : forall m, L m -> rb ∉ m.

(** A replacement that keeps the match and its brace, with text put in:
    the scan deletes nothing. *)
Lemma scan_sublist :
  (forall m, L m -> (m ++ [rb]) `sublist_of` R m) ->
  forall s, s `sublist_of` scan prog tmpl s.
Proof.
  intros HR s. remember (length s) as n eqn:Hn. revert s Hn.
  induction n as [n IH] using lt_wf_ind. intros s ->.
  destruct (scan_leftmost prog tmpl L R match_inv match_fwd L_rb s)
    as [[_ ->]|(pre & m & post & -> & Hm & _ & _ & ->)]; [done|].
  apply sublist_app; [done|].
  change (m ++ rb :: post) with (m ++ [rb] ++ post).
  rewrite (assoc_L (++)). apply sublist_app; [by apply HR|].
  apply (IH (length post)); [|done]. rewrite !length_app. simpl. lia.
Qed.

(** A replacement with [k] closing braces more than the match has. *)
Variable k : nat.
Hypothesis R_rb : forall m, L m -> 1 + k <= occurrences rb (R m).

Lemma scan_braces s : occurrences rb s <= occurrences rb (scan prog tmpl s).
Proof.
  remember (length s) as n eqn:Hn. revert s Hn.
  induction n as [n IH] using lt_wf_ind. intros s ->.
  destruct (scan_leftmost prog tmpl L R match_inv match_fwd L_rb s)
    as [[_ ->]|(pre & m & post & -> & Hm & _ & _ & ->)]; [done|].
  assert (occurrences rb post <= occurrences rb (scan prog tmpl post)).
  { apply (IH (length post)); [|done]. rewrite !length_app. simpl. lia. }
  pose proof (R_rb m Hm).
  change (m ++ rb :: post) with (m ++ [rb] ++ post).
  rewrite !occurrences_app, (proj1 (occurrences_none rb m) (L_rb m Hm)).
  change (occurrences rb [rb]) with 1. lia.
Qed.

Lemma scan_braces_match a m b :
  L m ->
  occurrences rb (a ++ m ++ rb :: b) + k
  <= occurrences rb (scan prog tmpl (a ++ m ++ rb :: b)).
Proof.
  intros Hm.
  destruct (scan_leftmost prog tmpl L R match_inv match_fwd L_rb
              (a ++ m ++ rb :: b))
    as [[Ha _]|(pre & m' & post & E & Hm' & _ & _ & ->)].
  { exfalso. by apply (Ha a m b). }
  rewrite E.
  pose proof (scan_braces post). pose proof (R_rb m' Hm').
  change (m' ++ rb :: post) with (m' ++ [rb] ++ post).
  rewrite !occurrences_app, (proj1 (occurrences_none rb m') (L_rb m' Hm')).
  change (occurrences rb [rb]) with 1. lia.
Qed.

Lemma scan_fixed_braces s : 0 < k -> scan prog tmpl s = s -> absent L s.
Proof.
  intros Hk E pre m post Hm ->.
  pose proof (scan_braces_match pre m post Hm) as H. rewrite E in H. lia.
Qed.
End ScanGrowth.

(** ** What an accessor rule keeps

    A text [h] without ['}'] that a ['}'] follows somewhere is still there,
    and still followed by a ['}'], when a rule has put its accessors in. *)

Section HeaderKept.
Variables (prog : list op) (tmpl : list titem).
Variable L : text -> Prop.
Variable acc : text.

Hypothesis match_inv : forall adv s e mk,
  match_at prog adv s = Some (e, mk) ->
  exists m rest, L m /\ s = m ++ rb :: rest /\ e = S (length m)
                 /\ expand tmpl s mk = with_accessors acc m.
Hypothesis match_fwd : forall m rest,
  L m -> exists mk, match_at prog false (m ++ rb :: rest) = Some (S (length m), mk).
Hypothesis L_rb : forall m, L m -> rb ∉ m.

Variable h : text.
Hypothesis h_rb : rb ∉ h.

Lemma header_kept s a b :
  s = a ++ h ++ b -> rb ∈ b ->
  exists a' b', scan prog tmpl s = a' ++ h ++ b' /\ rb ∈ b'.
Proof.
  remember (length s) as n eqn:Hn. revert s a b Hn.
  induction n as [n IH] using lt_wf_ind. intros s a b -> Es Hb.
  destruct (scan_leftmost prog tmpl L (with_accessors acc)
              match_inv match_fwd L_rb s)
    as [[_ ->]|(pre & m & post & E & Hm & _ & _ & ->)]; [by exists a, b|].
  assert (E' : (pre ++ m ++ [rb]) ++ post = (a ++ h) ++ b).
  { rewrite <- !(assoc_L (++)). simpl. by rewrite <- E, Es. }
  apply cut_app in E' as [(a2 & E1 & E2)|(b1 & Hb1 & E1 & E2)].
  - assert (E3 : a ++ h = (pre ++ m) ++ rb :: a2)
      by (rewrite E1; by rewrite <- !(assoc_L (++))).
    apply rb_in_prefix in E3 as (b' & Ea & Ea2); [|done].
    destruct (IH (length post)) with (s := post) (a := b') (b := b)
      as (a'' & b'' & Ep & Hb''); [|done| |done|].
    + rewrite E, !length_app. simpl. lia.
    + by rewrite E2, Ea2, <- (assoc_L (++)).
    + exists (pre ++ with_accessors acc m ++ a''), b''. split; [|done].
      rewrite Ep. by rewrite <- !(assoc_L (++)).
  - rewrite !(assoc_L (++)) in E1.
    apply ends_with in E1 as (b1' & -> & E1); [|done].
    exists a, (b1' ++ acc ++ [rb] ++ scan prog tmpl post). split.
    + unfold with_accessors. rewrite <- !(assoc_L (++)).
      rewrite (assoc_L (++) pre m), E1. by rewrite <- !(assoc_L (++)).
    + rewrite !elem_of_app. right. right. left. left.
Qed.
End HeaderKept.

(** The ParkingLotStatus pattern occurs when a ['}'] follows the header. *)
Lemma pls_present_iff s :
  PLS.present s <-> exists a b, s = a ++ PLS.header ++ b /\ rb ∈ b.
Proof.
  split.
  - intros (pre & inside & post & _ & ->). exists pre, (inside ++ rb :: post).
    split; [done|]. rewrite elem_of_app. right. left.
  - intros (a & b & -> & (b0 & b1 & -> & Hb0)%list_elem_of_split_l).
    by exists a, b0, b1.
Qed.

Lemma pls_present_after_evr s :
  PLS.present s -> PLS.present (scan EVR.prog EVR.tmpl s).
Proof.
  rewrite !pls_present_iff. intros (a & b & E & Hb).
  apply (header_kept EVR.prog EVR.tmpl EVR.is_body EVR.accessors
           evr_match_inv evr_match_fwd evr_body_no_rb PLS.header) with a b;
    [|done..].
  apply occurrences_none. reflexivity.
Qed.

Lemma pls_present_after_rsr s :
  PLS.present s -> PLS.present (scan RSR.prog RSR.tmpl s).
Proof.
  rewrite !pls_present_iff. intros (a & b & E & Hb).
  apply (header_kept RSR.prog RSR.tmpl RSR.is_body RSR.accessors
           rsr_match_inv rsr_match_fwd rsr_body_no_rb PLS.header) with a b;
    [|done..].
  apply occurrences_none. reflexivity.
Qed.

(** The fixed class holds the pattern again: its header, and the brace that
    ends its constructor. *)
Lemma pls_fixed_split :
  PLS.fixed = PLS.header ++ before rb (drop (length PLS.header) PLS.fixed)
                ++ rb :: after rb (drop (length PLS.header) PLS.fixed)
  /\ rb ∉ before rb (drop (length PLS.header) PLS.fixed).
Proof.
  split; [vm_compute; reflexivity|]. apply occurrences_none.
  vm_compute. reflexivity.
Qed.

Lemma pls_present_after_pls s :
  PLS.present s -> PLS.present (scan PLS.prog PLS.tmpl s).
Proof.
  intros Hs.
  destruct (scan_leftmost PLS.prog PLS.tmpl PLS.is_body (fun _ => PLS.fixed)
              pls_match_inv pls_match_fwd pls_body_no_rb s)
    as [[Ha _]|(pre & m & post & E & Hm & _ & _ & ->)].
  { by apply pls_absent_present in Ha. }
  destruct pls_fixed_split as [EF HF]. rewrite EF.
  eexists pre, _, _. split; [exact HF|]. by rewrite <- !(assoc_L (++)).
Qed.

Lemma evr_braces s :
  occurrences rb s <= occurrences rb (scan EVR.prog EVR.tmpl s).
Proof.
  apply (scan_braces EVR.prog EVR.tmpl EVR.is_body EVR.patched
           evr_match_inv evr_match_fwd evr_body_no_rb 0).
  intros m Hm. unfold EVR.patched. rewrite !occurrences_app.
  change (occurrences rb [rb]) with 1. lia.
Qed.

Lemma rsr_braces s :
  occurrences rb s <= occurrences rb (scan RSR.prog RSR.tmpl s).
Proof.
  apply (scan_braces RSR.prog RSR.tmpl RSR.is_body RSR.patched
           rsr_match_inv rsr_match_fwd rsr_body_no_rb 0).
  intros m Hm. unfold RSR.patched. rewrite !occurrences_app.
  change (occurrences rb [rb]) with 1. lia.
Qed.

Lemma pls_braces s :
  PLS.present s ->
  occurrences rb s + 4 <= occurrences rb (scan PLS.prog PLS.tmpl s).
Proof.
  intros (pre & inside & post & Hin & ->).
  rewrite (assoc_L (++) PLS.header).
  apply (scan_braces_match PLS.prog PLS.tmpl PLS.is_body (fun _ => PLS.fixed)
           pls_match_inv pls_match_fwd pls_body_no_rb 4).
  - intros m _. apply Nat.leb_le. vm_compute. reflexivity.
  - by exists inside.
Qed.

(** One run on a text with the ParkingLotStatus pattern. *)
Lemma transform_grows t u :
  PLS.present t -> transform t = Some u ->
  PLS.present u /\ occurrences rb t + 4 <= occurrences rb u.
Proof.
  rewrite transform_eq. intros Ht [= <-].
  pose proof (pls_present_after_evr t Ht) as H1.
  pose proof (pls_present_after_rsr _ H1) as H2.
  split; [by apply pls_present_after_pls|].
  pose proof (evr_braces t). pose proof (rsr_braces (scan EVR.prog EVR.tmpl t)).
  pose proof (pls_braces _ H2). lia.
Qed.

(** ** A replacement by a fixed text brings no block of fields *)

Lemma after_last_app c w l t :
  after_last c l = Some t -> after_last c (w ++ l) = Some t.
Proof. intros E. induction w as [|d w IH]; simpl; [done|]. by rewrite IH. Qed.

Section FieldDead.
Variable LX : text -> Prop.
Variable fld : text.
Hypothesis LX_field : forall m,
  LX m -> exists h t1 t2, m = h ++ lb :: t1 ++ fld ++ t2 /\ lb ∉ t1 ++ fld ++ t2.

Lemma seg_dead_not_ends sg : seg_dead fld sg = true -> ~ ends_in LX sg.
Proof.
  unfold seg_dead. intros H (x & m & (h & t1 & t2 & -> & Ht)%LX_field & ->).
  destruct (after_last lb (x ++ h ++ lb :: t1 ++ fld ++ t2)) as [t|] eqn:E.
  - apply after_last_Some in E as (l0 & E & Hl).
    rewrite (assoc_L (++) x h) in E.
    apply split_last_unique in E as [_ <-]; [|done..].
    apply Nat.eqb_eq in H. pose proof (count_sub_occurs t1 fld t2). lia.
  - apply after_last_None in E. apply E. rewrite !elem_of_app.
    right. right. left.
Qed.

Lemma seg_dead_app w sg :
  lb ∈ sg -> seg_dead fld sg = true -> ~ ends_in LX (w ++ sg).
Proof.
  intros Hlb H. apply seg_dead_not_ends. revert H. unfold seg_dead.
  destruct (after_last lb sg) as [t|] eqn:E.
  - by rewrite (after_last_app lb w sg t E).
  - by apply after_last_None in E.
Qed.
End FieldDead.

Section CrossFixed.
Variables (prog : list op) (tmpl : list titem).
Variables (LY LX : text -> Prop) (F sg1 : text) (ss : list text).

Hypothesis match_inv : forall adv s e mk,
  match_at prog adv s = Some (e, mk) ->
  exists m rest, LY m /\ s = m ++ rb :: rest /\ e = S (length m)
                 /\ expand tmpl s mk = F.
Hypothesis match_fwd : forall m rest,
  LY m ->
  exists mk, match_at prog false (m ++ rb :: rest) = Some (S (length m), mk).
Hypothesis LY_rb : forall m, LY m -> rb ∉ m.
Hypothesis LX_rb : forall m, LX m -> rb ∉ m.
Hypothesis F_split : split_rb F = (sg1 :: ss, []).
Hypothesis first_dead : forall w, ~ ends_in LX (w ++ sg1).
Hypothesis others_dead : forall sg, sg ∈ ss -> ~ ends_in LX sg.

Theorem absent_kept_fixed s : absent LX s -> absent LX (scan prog tmpl s).
Proof.
  destruct (split_rb_join F _ _ F_split) as [EF Hrb].
  rewrite app_nil_r in EF.
  apply Forall_cons in Hrb as [Hrb1 Hrbss].
  remember (length s) as n eqn:Hn. revert s Hn.
  induction n as [n IH] using lt_wf_ind. intros s -> Ha.
  destruct (scan_leftmost prog tmpl LY (fun _ => F)
              match_inv match_fwd LY_rb s)
    as [[_ ->]|(pre & m & post & -> & Hm & _ & _ & ->)]; [done|].
  assert (Hpost : absent LX (scan prog tmpl post)).
  { apply (IH (length post)); [rewrite !length_app; simpl; lia|done|].
    intros a mx b Hmx ->.
    apply (Ha (pre ++ m ++ rb :: a) mx b Hmx).
    by rewrite <- !(assoc_L (++)). }
  intros a mx b Hmx E.
  assert (E' : ((pre ++ sg1) ++ [rb]) ++ join ss ++ scan prog tmpl post
               = a ++ mx ++ rb :: b).
  { rewrite <- E, EF. simpl. by rewrite <- !(assoc_L (++)). }
  clear E.
  destruct (occ_split _ _ _ _ _ E' (LX_rb _ Hmx)) as [[b1 E]|[a2 E]]; clear E'.
  - destruct (decide (b1 = [])) as [->|Hne].
    + rewrite (assoc_L (++) a) in E. apply app_inj_tail in E as [E _].
      apply (first_dead pre). by exists a, mx.
    + change (a ++ mx ++ rb :: b1) with (a ++ mx ++ [rb] ++ b1) in E.
      rewrite (assoc_L (++) mx), (assoc_L (++) a) in E.
      apply ends_with in E as (b' & _ & E); [|done].
      assert (E2 : pre ++ sg1 = (a ++ mx) ++ rb :: b')
        by (by rewrite E, <- !(assoc_L (++))).
      apply rb_in_prefix in E2 as (b'' & E2 & _); [|done].
      apply (Ha a mx (b'' ++ m ++ rb :: post) Hmx).
      rewrite E2. by rewrite <- !(assoc_L (++)).
  - destruct (join_occ_app _ _ _ _ _ Hrbss E (LX_rb _ Hmx))
      as [(sg & x & Hsg & ->)|[a3 E3]].
    + apply (others_dead _ Hsg). by exists x, mx.
    + by apply (Hpost a3 mx b Hmx).
Qed.
End CrossFixed.

Lemma evr_field_shape m :
  EVR.is_body m ->
  exists h t1 t2, m = h ++ lb :: t1 ++ EVR.field ++ t2
                  /\ lb ∉ t1 ++ EVR.field ++ t2.
Proof.
  intros Hm. destruct (evr_body_shape m Hm) as (tail & E & Hlb & _).
  destruct Hm as (ws1 & ws2 & _ & _ & ->).
  exists EVR.header0, ws1, ws2. split; [done|].
  change (EVR.body ws1 ws2) with (EVR.header0 ++ lb :: ws1 ++ EVR.field ++ ws2)
    in E.
  by apply app_inv_head in E as [= <-].
Qed.

Lemma rsr_field_shape m :
  RSR.is_body m ->
  exists h t1 t2, m = h ++ lb :: t1 ++ RSR.field1 ++ t2
                  /\ lb ∉ t1 ++ RSR.field1 ++ t2.
Proof.
  intros Hm. destruct (rsr_body_shape m Hm) as (tail & E & Hlb & _).
  destruct Hm as (ws1 & ws2 & ws3 & _ & _ & _ & ->).
  exists RSR.header0, ws1, (ws2 ++ RSR.field2 ++ ws3). split; [done|].
  change (RSR.body ws1 ws2 ws3)
    with (RSR.header0 ++ lb :: ws1 ++ RSR.field1 ++ ws2 ++ RSR.field2 ++ ws3)
    in E.
  by apply app_inv_head in E as [= <-].
Qed.

Lemma pls_fixed_dead (LX : text -> Prop) (fld : text) :
  (forall m, LX m -> exists h t1 t2,
       m = h ++ lb :: t1 ++ fld ++ t2 /\ lb ∉ t1 ++ fld ++ t2) ->
  forallb (seg_dead fld) (fst (split_rb PLS.fixed)) = true ->
  exists sg1 ss,
    split_rb PLS.fixed = (sg1 :: ss, []) /\
    (forall w, ~ ends_in LX (w ++ sg1)) /\
    (forall sg, sg ∈ ss -> ~ ends_in LX sg).
Proof.
  intros Hshape Hdead.
  destruct (split_rb PLS.fixed) as [[|sg1 ss] tr] eqn:E;
    [vm_compute in E; discriminate|].
  assert (tr = []) as -> by (vm_compute in E; by injection E as _ _ <-).
  assert (Hlb : lb ∈ sg1).
  { assert (E1 : sg1 = hd [] (fst (split_rb PLS.fixed))) by by rewrite E.
    rewrite E1. apply (bool_decide_unpack _). vm_compute. reflexivity. }
  cbn [fst] in Hdead. cbn [forallb] in Hdead.
  apply andb_true_iff in Hdead as [H1 Hss].
  exists sg1, ss. split; [done|]. split.
  - intros w. by apply (seg_dead_app LX fld Hshape).
  - intros sg Hsg. apply (seg_dead_not_ends LX fld Hshape).
    rewrite forallb_forall in Hss. by apply Hss, list_elem_of_In.
Qed.

(** Rule 3 brings no block of fields into the text. *)
Lemma evr_absent_after_pls s :
  absent EVR.is_body s -> absent EVR.is_body (scan PLS.prog PLS.tmpl s).
Proof.
  destruct (pls_fixed_dead EVR.is_body EVR.field evr_field_shape)
    as (sg1 & ss & E & H1 & H2); [vm_compute; reflexivity|].
  exact (absent_kept_fixed PLS.prog PLS.tmpl PLS.is_body EVR.is_body
           PLS.fixed sg1 ss pls_match_inv pls_match_fwd pls_body_no_rb
           evr_body_no_rb E H1 H2 s).
Qed.

Lemma rsr_absent_after_pls s :
  absent RSR.is_body s -> absent RSR.is_body (scan PLS.prog PLS.tmpl s).
Proof.
  destruct (pls_fixed_dead RSR.is_body RSR.field1 rsr_field_shape)
    as (sg1 & ss & E & H1 & H2); [vm_compute; reflexivity|].
  exact (absent_kept_fixed PLS.prog PLS.tmpl PLS.is_body RSR.is_body
           PLS.fixed sg1 ss pls_match_inv pls_match_fwd pls_body_no_rb
           rsr_body_no_rb E H1 H2 s).
Qed.

(** Rule 1 brings no ReserveSpotRequest block into the text. *)
Lemma rsr_absent_after_evr s :
  absent RSR.is_body s -> absent RSR.is_body (scan EVR.prog EVR.tmpl s).
Proof.
  destruct (field_rule_dead RSR.is_body RSR.header0 EVR.accessors
              rsr_body_shape evr_accessors_ok) as [H1 H2].
  exact (absent_kept EVR.prog EVR.tmpl EVR.is_body RSR.is_body EVR.accessors
           evr_match_inv evr_match_fwd evr_body_no_rb rsr_body_no_rb
           evr_accessors_ok H1 H2 s).
Qed.

(** ** Dead segments

    A segment that ends at a ['}'] and in which no body of [L] ends is
    passed over by the scan. *)

Section DeadSegments.
Variables (prog : list op) (tmpl : list titem).
Variable L : text -> Prop.
Variable R : text -> text.

Hypothesis match_inv : forall adv s e mk,
  match_at prog adv s = Some (e, mk) ->
  exists m rest, L m /\ s = m ++ rb :: rest /\ e = S (length m)
                 /\ expand tmpl s mk = R m.
Hypothesis match_fwd : forall m rest,
  L m -> exists mk, match_at prog false (m ++ rb :: rest) = Some (S (length m), mk).
Hypothesis L_rb : forall m, L m -> rb ∉ m.

Lemma dead_segment_no_match sg x1 x2 post :
  rb ∉ sg -> ~ ends_in L sg -> sg ++ [rb] = x1 ++ x2 -> x2 <> [] ->
  match_at prog false (x2 ++ post) = None.
Proof.
  intros Hsg Hdead E Hx2.
  destruct (match_at prog false (x2 ++ post)) as [[e mk]|] eqn:M; [|done].
  exfalso. apply match_inv in M as (m & rest & Hm & M & _).
  apply ends_with in E as (x2' & -> & ->); [|done].
  rewrite <- (assoc_L (++)) in M. simpl in M.
  apply split_first_unique in M as [<- _]; [| |by apply L_rb].
  - apply Hdead. by exists x1, x2'.
  - rewrite elem_of_app in Hsg. tauto.
Qed.

Lemma scan_dead_segment sg post :
  rb ∉ sg -> ~ ends_in L sg ->
  scan prog tmpl ((sg ++ [rb]) ++ post) = (sg ++ [rb]) ++ scan prog tmpl post.
Proof.
  intros Hsg Hdead.
  assert (G : forall x2 x1,
             sg ++ [rb] = x1 ++ x2 ->
             scan prog tmpl (x2 ++ post) = x2 ++ scan prog tmpl post).
  { induction x2 as [|c x2 IH]; intros x1 E; [done|].
    simpl. rewrite (scan_miss prog tmpl L R match_inv).
    - f_equal. apply (IH (x1 ++ [c])). by rewrite <- (assoc_L (++)).
    - by apply (dead_segment_no_match sg x1 (c :: x2) post). }
  by apply (G (sg ++ [rb]) []).
Qed.

Lemma scan_dead_segments segs y :
  Forall (fun sg => rb ∉ sg) segs -> Forall (fun sg => ~ ends_in L sg) segs ->
  scan prog tmpl (join segs ++ y) = join segs ++ scan prog tmpl y.
Proof.
  intros Hrb Hdead. induction Hrb as [|sg segs Hsg _ IH]; [done|].
  apply Forall_cons in Hdead as [Hd Hdead].
  change (join (sg :: segs)) with ((sg ++ [rb]) ++ join segs).
  rewrite <- !(assoc_L (++) (sg ++ [rb])).
  by rewrite scan_dead_segment, IH.
Qed.

Lemma no_rb_absent s : rb ∉ s -> absent L s.
Proof.
  intros Hs pre m post _ ->. apply Hs. rewrite !elem_of_app.
  right. right. left.
Qed.

Lemma ends_in_dec sg : rb ∉ sg -> ends_in L sg \/ ~ ends_in L sg.
Proof.
  intros Hsg.
  destruct (scan_leftmost prog tmpl L R match_inv match_fwd L_rb (sg ++ [rb]))
    as [[Ha _]|(pre & m & post & E & Hm & _)].
  - right. intros (x & m & Hm & ->). apply (Ha x m [] Hm).
    by rewrite <- (assoc_L (++)).
  - left. exists pre, m. split; [done|].
    destruct (decide (post = [])) as [->|Hne].
    + rewrite (assoc_L (++)) in E. by apply app_inj_tail in E as [-> _].
    + exfalso. change (pre ++ m ++ rb :: post)
        with (pre ++ m ++ [rb] ++ post) in E.
      rewrite !(assoc_L (++)) in E.
      apply ends_with in E as (b' & _ & ->); [|done].
      apply Hsg. rewrite !elem_of_app. left. right. left.
Qed.
End DeadSegments.

(** ** Two accessor rules, one after the other

    [A] is the rule whose block ends the segment, [P] the other rule. *)

Section TwoRules.
Variables (progA progP : list op) (tmplA tmplP : list titem).
Variables (LA LP : text -> Prop) (HA HP accA accP : text).

Hypothesis match_invA : forall adv s e mk,
  match_at progA adv s = Some (e, mk) ->
  exists m rest, LA m /\ s = m ++ rb :: rest /\ e = S (length m)
                 /\ expand tmplA s mk = with_accessors accA m.
Hypothesis match_fwdA : forall m rest,
  LA m ->
  exists mk, match_at progA false (m ++ rb :: rest) = Some (S (length m), mk).
Hypothesis bodyA_no_rb : forall m, LA m -> rb ∉ m.
Hypothesis bodyA_shape : forall m,
  LA m ->
  exists tail, m = HA ++ lb :: tail /\ (lb ∉ tail) /\ (chr "v" ∈ tail).
Hypothesis accA_ok : accessors_inert accA = true.

Hypothesis match_invP : forall adv s e mk,
  match_at progP adv s = Some (e, mk) ->
  exists m rest, LP m /\ s = m ++ rb :: rest /\ e = S (length m)
                 /\ expand tmplP s mk = with_accessors accP m.
Hypothesis match_fwdP : forall m rest,
  LP m ->
  exists mk, match_at progP false (m ++ rb :: rest) = Some (S (length m), mk).
Hypothesis bodyP_no_rb : forall m, LP m -> rb ∉ m.
Hypothesis bodyP_shape : forall m,
  LP m ->
  exists tail, m = HP ++ lb :: tail /\ (lb ∉ tail) /\ (chr "v" ∈ tail).

Hypothesis exclusive : forall sg, ends_in LA sg -> ~ ends_in LP sg.

Lemma active_first x m rest :
  LA m -> rb ∉ x ->
  scan progA tmplA (x ++ m ++ rb :: rest)
  = x ++ with_accessors accA m ++ scan progA tmplA rest.
Proof.
  intros Hm Hx.
  rewrite (fb_local progA tmplA LA HA accA match_invA match_fwdA bodyA_no_rb
             bodyA_shape) by done.
  rewrite (fb_absent progA tmplA LA accA match_invA x); [done|].
  by apply no_rb_absent.
Qed.

(** The patched block of [A], with what stands before it in its segment,
    is passed over by [P]. *)
Lemma passive_over_patched x m z :
  LA m -> rb ∉ x ->
  scan progP tmplP (x ++ with_accessors accA m ++ z)
  = x ++ with_accessors accA m ++ scan progP tmplP z.
Proof.
  intros Hm Hx.
  destruct (accessors_split accA accA_ok) as (Eacc & Hrb & Hlb & Hfree).
  apply Forall_cons in Hrb as [HrbA Hrbss].
  apply Forall_cons in Hfree as [HfA Hfss].
  assert (E : forall z', x ++ with_accessors accA m ++ z'
              = join ((x ++ m ++ first_segment accA) :: other_segments accA)
                  ++ z').
  { intros z'. unfold with_accessors. rewrite Eacc. simpl.
    by rewrite <- !(assoc_L (++)). }
  rewrite !E.
  apply (scan_dead_segments progP tmplP LP (with_accessors accP) match_invP
           bodyP_no_rb).
  - constructor; [|done]. rewrite !elem_of_app.
    intros [?|[?|?]]; [done|by apply (bodyA_no_rb m)|done].
  - constructor.
    + apply (seg_free_not_ends LP HP bodyP_shape).
      rewrite (assoc_L (++)). by apply seg_free_app.
    + eapply Forall_impl; [exact Hfss|]. intros sg Hsg.
      by apply (seg_free_not_ends LP HP bodyP_shape).
Qed.

Lemma passive_over_block x m z :
  LA m -> rb ∉ x ->
  scan progP tmplP (x ++ m ++ rb :: z) = x ++ m ++ rb :: scan progP tmplP z.
Proof.
  intros Hm Hx.
  pose proof (scan_dead_segments progP tmplP LP (with_accessors accP)
                match_invP bodyP_no_rb [x ++ m] z) as E.
  simpl in E. rewrite app_nil_r, <- !(assoc_L (++)) in E. simpl in E.
  apply E.
  - constructor; [|done]. rewrite elem_of_app.
    intros [?|?]; [done|by apply (bodyA_no_rb m)].
  - constructor; [|done]. apply exclusive. by exists x, m.
Qed.

Lemma step_active_passive x m rest :
  LA m -> rb ∉ x ->
  scan progP tmplP (scan progA tmplA (x ++ m ++ rb :: rest))
  = x ++ with_accessors accA m ++ scan progP tmplP (scan progA tmplA rest).
Proof.
  intros Hm Hx. by rewrite active_first, passive_over_patched.
Qed.

Lemma step_passive_active x m rest :
  LA m -> rb ∉ x ->
  scan progA tmplA (scan progP tmplP (x ++ m ++ rb :: rest))
  = x ++ with_accessors accA m ++ scan progA tmplA (scan progP tmplP rest).
Proof.
  intros Hm Hx. by rewrite passive_over_block, active_first.
Qed.
End TwoRules.

(** No segment ends in a block of both kinds. *)
Lemma evr_rsr_exclusive sg :
  ends_in EVR.is_body sg -> ~ ends_in RSR.is_body sg.
Proof.
  intros (x & m & Hm & ->) (x' & m' & Hm' & E).
  destruct (evr_body_shape m Hm) as (tl1 & -> & H1 & _).
  destruct (rsr_body_shape m' Hm') as (tl2 & -> & H2 & _).
  rewrite !(assoc_L (++)) in E.
  apply split_last_unique in E as [E _]; [|done..].
  apply app_inj_2 in E as [_ E]; [|reflexivity].
  vm_compute in E. discriminate.
Qed.

Lemma rsr_evr_exclusive sg :
  ends_in RSR.is_body sg -> ~ ends_in EVR.is_body sg.
Proof. intros H H'. by apply (evr_rsr_exclusive sg). Qed.

Lemma accessor_scans_commute t :
  scan RSR.prog RSR.tmpl (scan EVR.prog EVR.tmpl t)
  = scan EVR.prog EVR.tmpl (scan RSR.prog RSR.tmpl t).
Proof.
  remember (length t) as n eqn:Hn. revert t Hn.
  induction n as [n IH] using lt_wf_ind. intros t ->.
  destruct (decide (rb ∈ t)) as [Hin|Hin].
  2:{ rewrite (fb_absent EVR.prog EVR.tmpl EVR.is_body EVR.accessors
                 evr_match_inv t) by by apply no_rb_absent.
      rewrite (fb_absent RSR.prog RSR.tmpl RSR.is_body RSR.accessors
                 rsr_match_inv t) by by apply no_rb_absent.
      rewrite (fb_absent EVR.prog EVR.tmpl EVR.is_body EVR.accessors
                 evr_match_inv t) by by apply no_rb_absent.
      done. }
  apply list_elem_of_split_l in Hin as (sg & rest & -> & Hsg).
  assert (Hrest : scan RSR.prog RSR.tmpl (scan EVR.prog EVR.tmpl rest)
                  = scan EVR.prog EVR.tmpl (scan RSR.prog RSR.tmpl rest)).
  { apply (IH (length rest)); [|done]. rewrite length_app. simpl. lia. }
  destruct (ends_in_dec EVR.prog EVR.tmpl EVR.is_body EVR.patched
              evr_match_inv evr_match_fwd evr_body_no_rb sg Hsg)
    as [(x & m & Hm & ->)|H1].
  { assert (Hx : rb ∉ x) by (rewrite elem_of_app in Hsg; tauto).
    rewrite <- !(assoc_L (++)).
    rewrite (step_active_passive EVR.prog RSR.prog EVR.tmpl RSR.tmpl
               EVR.is_body RSR.is_body EVR.header0 RSR.header0
               EVR.accessors RSR.accessors evr_match_inv evr_match_fwd
               evr_body_no_rb evr_body_shape evr_accessors_ok
               rsr_match_inv rsr_body_no_rb rsr_body_shape) by done.
    rewrite (step_passive_active EVR.prog RSR.prog EVR.tmpl RSR.tmpl
               EVR.is_body RSR.is_body EVR.header0
               EVR.accessors RSR.accessors evr_match_inv evr_match_fwd
               evr_body_no_rb evr_body_shape
               rsr_match_inv rsr_body_no_rb evr_rsr_exclusive) by done.
    by rewrite Hrest. }
  destruct (ends_in_dec RSR.prog RSR.tmpl RSR.is_body RSR.patched
              rsr_match_inv rsr_match_fwd rsr_body_no_rb sg Hsg)
    as [(x & m & Hm & ->)|H2].
  { assert (Hx : rb ∉ x) by (rewrite elem_of_app in Hsg; tauto).
    rewrite <- !(assoc_L (++)).
    rewrite (step_active_passive RSR.prog EVR.prog RSR.tmpl EVR.tmpl
               RSR.is_body EVR.is_body RSR.header0 EVR.header0
               RSR.accessors EVR.accessors rsr_match_inv rsr_match_fwd
               rsr_body_no_rb rsr_body_shape rsr_accessors_ok
               evr_match_inv evr_body_no_rb evr_body_shape) by done.
    rewrite (step_passive_active RSR.prog EVR.prog RSR.tmpl EVR.tmpl
               RSR.is_body EVR.is_body RSR.header0
               RSR.accessors EVR.accessors rsr_match_inv rsr_match_fwd
               rsr_body_no_rb rsr_body_shape
               evr_match_inv evr_body_no_rb rsr_evr_exclusive) by done.
    by rewrite Hrest. }
  assert (S1 : forall z, scan EVR.prog EVR.tmpl (sg ++ rb :: z)
                         = sg ++ rb :: scan EVR.prog EVR.tmpl z).
  { intros z.
    pose proof (scan_dead_segments EVR.prog EVR.tmpl EVR.is_body EVR.patched
                  evr_match_inv evr_body_no_rb [sg] z) as E.
    simpl in E. rewrite app_nil_r, <- !(assoc_L (++)) in E.
    apply E; by repeat constructor. }
  assert (S2 : forall z, scan RSR.prog RSR.tmpl (sg ++ rb :: z)
                         = sg ++ rb :: scan RSR.prog RSR.tmpl z).
  { intros z.
    pose proof (scan_dead_segments RSR.prog RSR.tmpl RSR.is_body RSR.patched
                  rsr_match_inv rsr_body_no_rb [sg] z) as E.
    simpl in E. rewrite app_nil_r, <- !(assoc_L (++)) in E.
    apply E; by repeat constructor. }
  by rewrite S1, !S2, S1, Hrest.
Qed.

(** ** The outcome of a run *)

(** X1.  A run ends with status 0 exactly when the controller file exists,
    may be read, decodes and may be written; what the text holds plays no
    part, and none of the three [re.sub] calls raises [re.error]. *)
Theorem run_status w :
  (fst (run w) = 0 <->
   exists f t, fs w !! controller_file = Some f /\ f_readable f = true /\
               f_data f = Some t /\ f_writable f = true)
  /\ fst (script w) <> Raise ReError.
Proof.
  unfold run.
  destruct (script_cases w)
    as [(H & S)|[(f & H & Hr & S)|[(f & H & Hr & Hd & S)
       |[(f & t & H & Hr & Hd & Hw & S)
        |(f & t & t' & H & Hr & Hd & Hw & Ht & S)]]]];
    rewrite S; cbn [fst exit_status]; (split; [split|done]); try done.
  - intros (f' & t' & H' & _). congruence.
  - intros (f' & t' & H' & Hr' & _). congruence.
  - intros (f' & t' & H' & _ & Hd' & _). congruence.
  - intros (f' & t' & H' & _ & _ & Hw'). congruence.
  - intros _. by exists f, t.
Qed.

(** X2.  When the file can be read and written, the run succeeds and the
    file then holds the output of rule 3 on the output of rule 2 on the
    output of rule 1 on its old text, and nothing of the old text besides:
    ['w'] truncates before the write.  The file keeps its permissions. *)
Theorem run_rewrites_file w f t :
  fs w !! controller_file = Some f ->
  f_readable f = true -> f_data f = Some t -> f_writable f = true ->
  exists u1 u2 u,
    sub_ExitVehicleRequest t = Some u1 /\
    sub_ReserveSpotRequest u1 = Some u2 /\
    sub_ParkingLotStatus u2 = Some u /\
    fst (run w) = 0 /\
    fs (snd (run w))
    = <[controller_file := File (f_readable f) (f_writable f) (Some u)]> (fs w).
Proof.
  intros H Hr Hd Hw.
  destruct (script_ok w f t H Hr Hd Hw) as (u & Hu & E).
  rewrite transform_eq in Hu. injection Hu as <-.
  eexists _, _, _. rewrite evr_sub_eq, rsr_sub_eq, pls_sub_eq.
  split; [done|]. split; [done|]. split; [done|].
  unfold run. rewrite E, Hr, Hw. done.
Qed.

Lemma run_rewrites_file_witness :
  let t := str "x public static class ParkingLotStatus { int n; } y" in
  let f := File true true (Some t) in
  let w := World {[ controller_file := f ]} [] [] in
  exists u1 u2 u,
    sub_ExitVehicleRequest t = Some u1 /\
    sub_ReserveSpotRequest u1 = Some u2 /\
    sub_ParkingLotStatus u2 = Some u /\
    fst (run w) = 0 /\
    fs (snd (run w))
    = <[controller_file := File (f_readable f) (f_writable f) (Some u)]> (fs w).
Proof.
  intros t f w. apply (run_rewrites_file w f t).
  - apply lookup_singleton_eq.
  - reflexivity.
  - reflexivity.
  - reflexivity.
Defined.

(** X3.  Whatever the outcome of a run, its file operations are well
    bracketed: the handle for reading is closed before the file is opened
    for writing, the file is read and written only through an open handle
    of the right mode, and no handle is left open, also when [read] or the
    second [open] raises. *)
Theorem files_closed w :
  exists evs,
    log (snd (script w)) = log w ++ evs /\ well_bracketed None evs = true.
Proof.
  destruct (script_cases w)
    as [(_ & S)|[(f & _ & _ & S)|[(f & _ & _ & _ & S)|[(f & t & _ & _ & _ & _ & S)
       |(f & t & t' & _ & _ & _ & _ & _ & S)]]]];
    rewrite S; cbn [snd log].
  - exists []. by rewrite app_nil_r.
  - exists []. by rewrite app_nil_r.
  - eexists. split; [done|]. vm_compute. reflexivity.
  - eexists. split; [done|]. vm_compute. reflexivity.
  - eexists. split; [done|]. vm_compute. reflexivity.
Qed.

(** X4.  Two runs of the script in a row, on a file whose text has no
    ParkingLotStatus span: the second run succeeds, prints the confirmation
    again and leaves the file system as the first run left it. *)
Theorem second_run_same_file w f t :
  fs w !! controller_file = Some f ->
  f_readable f = true -> f_data f = Some t -> f_writable f = true ->
  ~ PLS.present t ->
  let w1 := snd (run w) in
  fst (run w1) = 0 /\
  fs (snd (run w1)) = fs w1 /\
  stdout (snd (run w1)) = stdout w ++ [str confirmation; str confirmation].
Proof.
  intros H Hr Hd Hw H3 w1.
  destruct (script_ok w f t H Hr Hd Hw) as (u & Hu & E).
  assert (E1 : w1 = snd (script w)) by (unfold w1, run; by destruct (script w)).
  rewrite E in E1. cbn [snd] in E1.
  pose proof (transform_idempotent t u H3 Hu) as Hu'.
  destruct (script_ok w1 (File true true (Some u)) u) as (u' & Hu'' & E').
  { rewrite E1. cbn [fs]. apply lookup_insert_eq. }
  { done. } { done. } { done. }
  rewrite Hu' in Hu''. injection Hu'' as <-.
  unfold run. rewrite E'. cbn [fst snd exit_status fs stdout].
  split; [done|]. split.
  - rewrite E1. cbn [fs]. by rewrite insert_insert_eq.
  - rewrite E1. cbn [stdout]. by rewrite <- (assoc_L (++)).
Qed.

Lemma second_run_same_file_witness :
  let t := str "public static class ExitVehicleRequest { private String ticketNumber; }" in
  let w := World {[ controller_file := File true true (Some t) ]} [] [] in
  let w1 := snd (run w) in
  fst (run w1) = 0 /\
  fs (snd (run w1)) = fs w1 /\
  stdout (snd (run w1)) = stdout w ++ [str confirmation; str confirmation].
Proof.
  intros t w.
  apply (second_run_same_file w (File true true (Some t)) t).
  - apply lookup_singleton_eq.
  - reflexivity.
  - reflexivity.
  - reflexivity.
  - apply pls_check_absent. vm_compute. reflexivity.
Defined.

(** ** Fixed points of the rules *)

(** X5.  Each of the three rules returns its input as it is exactly when
    its pattern occurs nowhere in it. *)
Theorem rule_fixes_iff_absent t :
  (sub_ExitVehicleRequest t = Some t <-> ~ EVR.present t) /\
  (sub_ReserveSpotRequest t = Some t <-> ~ RSR.present t) /\
  (sub_ParkingLotStatus t = Some t <-> ~ PLS.present t).
Proof.
  rewrite evr_sub_eq, rsr_sub_eq, pls_sub_eq. split; [|split]; split.
  - intros [= E]. apply evr_absent_present. rewrite <- E.
    apply evr_self_absent.
  - intros H. by rewrite evr_unchanged.
  - intros [= E]. apply rsr_absent_present. rewrite <- E.
    apply rsr_self_absent.
  - intros H. by rewrite rsr_unchanged.
  - intros [= E]. apply pls_absent_present.
    apply (scan_fixed_braces PLS.prog PLS.tmpl PLS.is_body (fun _ => PLS.fixed)
             pls_match_inv pls_match_fwd pls_body_no_rb 4); [|lia|done].
    intros m _. apply Nat.leb_le. vm_compute. reflexivity.
  - intros H. by rewrite pls_unchanged.
Qed.

(** X6.  Rules 1 and 2 only put text in: the input is a subsequence of the
    output, no character of it is dropped or moved. *)
Theorem accessor_rules_only_insert t :
  (exists u, sub_ExitVehicleRequest t = Some u /\ t `sublist_of` u) /\
  (exists u, sub_ReserveSpotRequest t = Some u /\ t `sublist_of` u).
Proof.
  split; eexists; (split; [apply evr_sub_eq || apply rsr_sub_eq|]).
  - apply (scan_sublist EVR.prog EVR.tmpl EVR.is_body EVR.patched
             evr_match_inv evr_match_fwd evr_body_no_rb).
    intros m _. unfold EVR.patched. apply sublist_app; [done|].
    by apply sublist_inserts_l.
  - apply (scan_sublist RSR.prog RSR.tmpl RSR.is_body RSR.patched
             rsr_match_inv rsr_match_fwd rsr_body_no_rb).
    intros m _. unfold RSR.patched. apply sublist_app; [done|].
    by apply sublist_inserts_l.
Qed.

(** ** The rules among themselves *)

(** X7.  No rule brings a match of another rule into the text: a pattern
    that is absent before a rule is absent after it. *)
Theorem rules_bring_no_match t :
  (~ RSR.present t ->
   exists u, sub_ExitVehicleRequest t = Some u /\ ~ RSR.present u) /\
  (~ PLS.present t ->
   exists u, sub_ExitVehicleRequest t = Some u /\ ~ PLS.present u) /\
  (~ EVR.present t ->
   exists u, sub_ReserveSpotRequest t = Some u /\ ~ EVR.present u) /\
  (~ PLS.present t ->
   exists u, sub_ReserveSpotRequest t = Some u /\ ~ PLS.present u) /\
  (~ EVR.present t ->
   exists u, sub_ParkingLotStatus t = Some u /\ ~ EVR.present u) /\
  (~ RSR.present t ->
   exists u, sub_ParkingLotStatus t = Some u /\ ~ RSR.present u).
Proof.
  rewrite evr_sub_eq, rsr_sub_eq, pls_sub_eq.
  repeat split; intros H; (eexists; split; [done|]).
  - by apply rsr_absent_present, rsr_absent_after_evr, rsr_absent_present.
  - by apply pls_absent_present, pls_absent_after_evr, pls_absent_present.
  - by apply evr_absent_present, evr_absent_after_rsr, evr_absent_present.
  - by apply pls_absent_present, pls_absent_after_rsr, pls_absent_present.
  - by apply evr_absent_present, evr_absent_after_pls, evr_absent_present.
  - by apply rsr_absent_present, rsr_absent_after_pls, rsr_absent_present.
Qed.

Lemma rules_bring_no_match_witness :
  let t := str "public static class ParkingLotStatus { int n; }" in
  exists u, sub_ParkingLotStatus t = Some u /\ ~ EVR.present u.
Proof.
  intros t. apply (rules_bring_no_match t).
  apply evr_check_absent. vm_compute. reflexivity.
Defined.

(** X8.  After the three rules no ExitVehicleRequest block and no
    ReserveSpotRequest block is left without its accessors: neither pattern
    occurs in the output, whatever the input. *)
Theorem no_block_left_unpatched t :
  exists u, transform t = Some u /\ ~ EVR.present u /\ ~ RSR.present u.
Proof.
  eexists. split; [apply transform_eq|]. split.
  - apply evr_absent_present, evr_absent_after_pls, evr_absent_after_rsr,
      evr_self_absent.
  - apply rsr_absent_present, rsr_absent_after_pls, rsr_self_absent.
Qed.

(** X9.  Rules 1 and 2 may be applied in either order: the result is the
    same. *)
Theorem accessor_rules_commute t :
  (u ← sub_ExitVehicleRequest t; sub_ReserveSpotRequest u)
  = (u ← sub_ReserveSpotRequest t; sub_ExitVehicleRequest u).
Proof.
  rewrite evr_sub_eq, rsr_sub_eq. cbv beta iota delta [mbind option_bind].
  rewrite evr_sub_eq, rsr_sub_eq. f_equal. apply accessor_scans_commute.
Qed.

(** X10.  Whether rule 3 finds its pattern is settled by the text read from
    the file: rules 1 and 2 neither bring a ParkingLotStatus span into the
    text nor take one out of it. *)
Theorem ParkingLotStatus_span_untouched_by_accessors t :
  exists u1 u2,
    sub_ExitVehicleRequest t = Some u1 /\
    sub_ReserveSpotRequest u1 = Some u2 /\
    (PLS.present u2 <-> PLS.present t).
Proof.
  eexists _, _. rewrite !evr_sub_eq, !rsr_sub_eq.
  split; [done|]. split; [done|]. split.
  - intros H.
    destruct (scan_leftmost PLS.prog PLS.tmpl PLS.is_body (fun _ => PLS.fixed)
                pls_match_inv pls_match_fwd pls_body_no_rb t)
      as [[Ha _]|(pre & m & post & -> & (inside & Hin & ->) & _)].
    + exfalso. revert H. apply pls_absent_present.
      by apply pls_absent_after_rsr, pls_absent_after_evr.
    + exists pre, inside, post. split; [done|]. by rewrite <- (assoc_L (++)).
  - intros H. by apply pls_present_after_rsr, pls_present_after_evr.
Qed.

(** ** Run after run *)

(** X11.  A second run of the three rules changes the output of the first
    exactly when the ParkingLotStatus pattern occurred in the input. *)
Theorem second_run_changes_iff t u :
  transform t = Some u -> (transform u = Some u <-> ~ PLS.present t).
Proof.
  intros Hu. split.
  - intros Huu Ht.
    destruct (transform_grows t u Ht Hu) as [Hpu _].
    destruct (transform_grows u u Hpu Huu) as [_ Hocc]. lia.
  - intros Ht. by apply (transform_idempotent t).
Qed.

Lemma second_run_changes_iff_witness :
  let t := str "public static class ParkingLotStatus {}" in
  transform PLS.fixed = Some PLS.fixed <-> ~ PLS.present t.
Proof.
  intros t. apply (second_run_changes_iff t PLS.fixed).
  vm_compute. reflexivity.
Defined.

(** X12.  Once the ParkingLotStatus pattern is in the text it stays: every
    further run finds it again and leaves at least four closing braces
    more than it found, so that no number of runs ends in a text that the
    rules leave alone. *)
Theorem runs_never_settle n t :
  PLS.present t ->
  exists u, transform_n n t = Some u /\ PLS.present u /\
            occurrences rb t + 4 * n <= occurrences rb u.
Proof.
  revert t. induction n as [|n IH]; intros t Ht.
  - exists t. simpl. split; [done|]. split; [done|]. lia.
  - cbn [transform_n].
    destruct (transform_grows t _ Ht (transform_eq t)) as [H1 Hocc].
    destruct (IH _ H1) as (u & Hu & Hpu & Hocc').
    exists u. rewrite transform_eq. cbv beta iota delta [mbind option_bind].
    split; [done|]. split; [done|]. lia.
Qed.

Lemma runs_never_settle_witness :
  let t := str "public static class ParkingLotStatus {}" in
  exists u, transform_n 3 t = Some u /\ PLS.present u /\
            occurrences rb t + 4 * 3 <= occurrences rb u.
Proof.
  intros t. apply (runs_never_settle 3 t).
  exists [], [], []. split; [by intros ?%elem_of_nil|]. reflexivity.
Defined.

(** ** The flags of the calls *)

(** X13.  The flag [re.DOTALL] of the three calls changes nothing: none of
    the patterns has a dot, and without the flag each call returns the
    same result on every text. *)
Theorem dotall_flag_unused content :
  re_sub ExitVehicleRequest_pattern ExitVehicleRequest_repl content false
  = sub_ExitVehicleRequest content
  /\ re_sub ReserveSpotRequest_pattern ReserveSpotRequest_repl content false
     = sub_ReserveSpotRequest content
  /\ re_sub ParkingLotStatus_pattern ParkingLotStatus_repl content false
     = sub_ParkingLotStatus content.
Proof.
  unfold sub_ExitVehicleRequest, sub_ReserveSpotRequest, sub_ParkingLotStatus,
    re_sub.
  assert (E1 : compile ExitVehicleRequest_pattern false
               = compile ExitVehicleRequest_pattern true)
    by (vm_compute; reflexivity).
  assert (E2 : compile ReserveSpotRequest_pattern false
               = compile ReserveSpotRequest_pattern true)
    by (vm_compute; reflexivity).
  assert (E3 : compile ParkingLotStatus_pattern false
               = compile ParkingLotStatus_pattern true)
    by (vm_compute; reflexivity).
  by rewrite E1, E2, E3.
Qed.
